(** * Kugelaudio TTS sidecar (services/kugelaudio-tts/app.py)

    A shallow embedding of the sidecar's request handlers and of the
    model lifecycle, with the proofs of its admission, error-mapping and
    parameter-resolution properties.

    Python strings are sequences of Unicode code points; values of the
    external libraries (torch, numpy, soundfile, kugelaudio_open) are opaque
    handles whose behaviour is supplied by an oracle: every call into them
    either returns a value or raises.  Handlers are written in a small
    instruction tree ([prog]) whose leaves are the effects the source
    performs: reading the environment, reading and assigning the module
    globals, calling a collaborator, acquiring and releasing
    [GENERATE_LOCK]. *)

From Stdlib Require Import List String Ascii ZArith NArith Bool Lia Arith.
From Stdlib Require Import DecimalString.
From Stdlib Require Import Floats.SpecFloat.
Import ListNotations.

Set Implicit Arguments.
Set Warnings "-register-all".

(* ================================================================== *)
(** ** Python values *)

(** [str]: a sequence of code points. *)
Definition str := list N.

(** A literal of the source. *)
Definition lit (s : string) : str := map N_of_ascii (list_ascii_of_string s).

Definition is_empty (s : str) : bool :=
  match s with [] => true | _ :: _ => false end.

(** [len(s)] *)
Definition len (s : str) : Z := Z.of_nat (List.length s).

(** [str.isspace] on one code point: the Unicode white space of CPython. *)
Definition isspace (c : N) : bool :=
  ((9 <=? c) && (c <=? 13) || (28 <=? c) && (c <=? 32)
   || (c =? 133) || (c =? 160) || (c =? 5760)
   || (8192 <=? c) && (c <=? 8202)
   || (c =? 8232) || (c =? 8233) || (c =? 8239) || (c =? 8287)
   || (c =? 12288))%N.

Fixpoint lstrip (s : str) : str :=
  match s with
  | [] => []
  | c :: r => if isspace c then lstrip r else s
  end.

Definition rstrip (s : str) : str := rev (lstrip (rev s)).

(** [s.strip()] *)
Definition strip (s : str) : str := rstrip (lstrip s).

(** [s.startswith(prefix)] *)
Fixpoint startswith (s prefix : str) : bool :=
  match prefix with
  | [] => true
  | c :: prefix' =>
      match s with
      | [] => false
      | d :: s' => (c =? d)%N && startswith s' prefix'
      end
  end.

(** [str(n)] for an [int], as an f-string renders it. *)
Definition str_of_int (n : Z) : str := lit (NilZero.string_of_int (Z.to_int n)).

(** [s.lower()] restricted to ASCII letters; the full Unicode case mapping
    is a parameter of [resolve_device] below, this is the instance used on
    ASCII configuration values. *)
Definition ascii_lower (s : str) : str :=
  map (fun c => if ((65 <=? c) && (c <=? 90))%N then (c + 32)%N else c) s.

(** Python [float]: an IEEE 754 datum. *)
Definition float := spec_float.
Definition float_zero : float := S754_zero false.

(** [bool(x)] for a float: [x != 0.0]. *)
Definition float_truthy (x : float) : bool := negb (SFeqb x float_zero).
(** [x > 0] for a float. *)
Definition float_gt0 (x : float) : bool := SFltb float_zero x.
(** [x <= 0] for a float. *)
Definition float_le0 (x : float) : bool := SFleb x float_zero.

(** [bool(n)] for an int: [n != 0]. *)
Definition int_truthy (n : Z) : bool := negb (n =? 0)%Z.

(** An object of an external library, by identity; [isinstance(_,
    torch.Tensor)] is decided by the tag. *)
Inductive obj : Type :=
| Tensor (id : N)
| Object (id : N).

Definition isinstance_Tensor (o : obj) : bool :=
  match o with Tensor _ => true | Object _ => false end.

Definition is_some {A} (o : option A) : bool :=
  match o with Some _ => true | None => false end.

Definition is_none {A} (o : option A) : bool := negb (is_some o).

(* ================================================================== *)
(** ** Exceptions *)

(** Exceptions by the classes the handler's [except] clauses tell apart,
    each with its [str(error)]: [ValueError] and its subclasses,
    [HTTPException], any other subclass of [Exception], and what derives
    from [BaseException] only ([KeyboardInterrupt], [CancelledError]).
    [cause] is the [__cause__] set by [raise ... from error]. *)
Inductive exn : Type :=
| ValueError (msg : str)
| HTTPException (status_code : Z) (detail : str) (cause : option exn)
| OtherException (msg : str)
| BaseOnly (msg : str).

Definition status_of (e : exn) : option Z :=
  match e with HTTPException s _ _ => Some s | _ => None end.

(* ================================================================== *)
(** ** Configuration (module constants, lines 20-48) *)

Record config : Type := {
  MODEL_ID : str;
  TEXT_MAX_CHARS : Z;
  DEFAULT_CFG_SCALE : float;
  DEFAULT_MAX_TOKENS : Z;
  DEFAULT_VOICE : option str
}.

(** [3.0] as a binary64 datum. *)
Definition float_3 : float := S754_finite false 6755399441055744 (-51).

Definition default_model_id : str := lit "kugelaudio/kugelaudio-0-open".

(** [a or b] on strings. *)
Definition or_str (a b : str) : str := if is_empty a then b else a.

(** [(v or "")] for an optional string. *)
Definition or_empty (v : option str) : str :=
  match v with Some s => s | None => [] end.

(** [s or None] *)
Definition or_None (s : str) : option str :=
  if is_empty s then None else Some s.

Section Parsing.

(** [int(value)] and [float(value)] on a string: [None] stands for the
    [ValueError] the two parsers catch. *)
Variable py_int : str -> option Z.
Variable py_float : str -> option float.

Definition parse_positive_int (value : option str) (fallback : Z) : Z :=
  match value with
  | None => fallback
  | Some v =>
      match py_int v with
      | Some parsed => if (parsed <=? 0)%Z then fallback else parsed
      | None => fallback
      end
  end.

Definition parse_positive_float (value : option str) (fallback : float) : float :=
  match value with
  | None => fallback
  | Some v =>
      match py_float v with
      | Some parsed => if float_le0 parsed then fallback else parsed
      | None => fallback
      end
  end.

(** The module constants, from the process environment. *)
Definition load_config (getenv : string -> option str) : config :=
  {| MODEL_ID :=
       or_str (strip (match getenv "KUGELAUDIO_MODEL_ID"%string with
                      | Some v => v
                      | None => default_model_id
                      end))
              default_model_id;
     TEXT_MAX_CHARS :=
       parse_positive_int (getenv "KUGELAUDIO_TEXT_MAX_CHARS"%string) 4000;
     DEFAULT_CFG_SCALE :=
       parse_positive_float (getenv "KUGELAUDIO_DEFAULT_CFG_SCALE"%string)
                            float_3;
     DEFAULT_MAX_TOKENS :=
       parse_positive_int (getenv "KUGELAUDIO_DEFAULT_MAX_TOKENS"%string) 2048;
     DEFAULT_VOICE :=
       or_None (strip (or_empty (getenv "KUGELAUDIO_DEFAULT_VOICE"%string))) |}.

End Parsing.

(* ================================================================== *)
(** ** Process-wide state *)

(** The assignable module globals (lines 50-52). *)
Record globals : Type := {
  MODEL : option obj;
  PROCESSOR : option obj;
  DEVICE : str
}.

Definition initial_globals : globals :=
  {| MODEL := None; PROCESSOR := None; DEVICE := lit "cpu" |}.

Definition set_MODEL (m : option obj) (g : globals) : globals :=
  {| MODEL := m; PROCESSOR := PROCESSOR g; DEVICE := DEVICE g |}.
Definition set_PROCESSOR (p : option obj) (g : globals) : globals :=
  {| MODEL := MODEL g; PROCESSOR := p; DEVICE := DEVICE g |}.
Definition set_DEVICE (d : str) (g : globals) : globals :=
  {| MODEL := MODEL g; PROCESSOR := PROCESSOR g; DEVICE := d |}.

(** [MODEL is not None and PROCESSOR is not None] *)
Definition loaded (g : globals) : bool := is_some (MODEL g) && is_some (PROCESSOR g).

(** The request body.  The framework rejects a [text] of no character
    ([min_length=1]) before the handler runs; nothing below relies on it. *)
Record TtsRequest : Type := {
  text : str;
  voice : option str;
  cfgScale : option float;
  maxTokens : option Z
}.

Record Response : Type := {
  content : list Byte.byte;
  media_type : str
}.

Record Health : Type := {
  ok : bool;
  model : str;
  device : str
}.

(* ================================================================== *)
(** ** Calls into the external libraries *)

Inductive dtype : Type := bfloat16 | float32.

(** One constructor per call the source makes, indexed by the type of what
    the call returns.  A receiver read from a global is passed as read
    (possibly [None]). *)
Inductive ext : Type -> Type :=
| ModelFromPretrained (model_id : str) (torch_dtype : dtype) : ext obj
| ModelTo (model : obj) (device : str) : ext obj
| ModelEval (model : obj) : ext unit
| StripEncoders (model : obj) : ext unit
| ProcessorFromPretrained (model_id : str) : ext obj
| ProcessorCall (processor : option obj) (text : str) (voice : option str) : ext obj
| InputsToDevice (inputs : obj) (device : str) : ext obj
| Generate (model : option obj) (inputs : obj) (cfg_scale : float) (max_new_tokens : Z) : ext obj
| SpeechOutputs0 (outputs : obj) : ext obj
| TensorToNumpy (generated : obj) : ext obj
| NpAsarrayFloat32 (generated : obj) : ext obj
| NpAsarraySqueeze (audio : obj) : ext obj
| SamplingRate (processor : option obj) : ext (option Z)
| SfWriteWav (audio : obj) (sample_rate : Z) : ext (list Byte.byte).

(** How the libraries answer: a value or an exception for every call. *)
Definition oracle : Type := forall X, ext X -> exn + X.

(** Steps 4-8 of the pipeline: everything [tts] calls. *)
Definition is_pipeline {X} (c : ext X) : bool :=
  match c with
  | ProcessorCall _ _ _ | InputsToDevice _ _ | Generate _ _ _ _
  | SpeechOutputs0 _ | TensorToNumpy _ | NpAsarrayFloat32 _
  | NpAsarraySqueeze _ | SamplingRate _ | SfWriteWav _ _ => true
  | _ => false
  end.

(** The engine's generation routine. *)
Definition is_generate {X} (c : ext X) : bool :=
  match c with Generate _ _ _ _ => true | _ => false end.

(** Steps 4-5: the calls made inside [async with GENERATE_LOCK]. *)
Definition is_gated {X} (c : ext X) : bool :=
  match c with
  | ProcessorCall _ _ _ | InputsToDevice _ _ | Generate _ _ _ _ => true
  | _ => false
  end.

(* ================================================================== *)
(** ** Programs *)

(** A handler as the tree of its effects.  [Call c k] calls into a
    library and continues with what the call returned or raised;
    [Acquire] is [await GENERATE_LOCK.acquire()], the only point where a
    handler can suspend; [Release] is [GENERATE_LOCK.release()]. *)
Inductive prog (R : Type) : Type :=
| Ret (r : R)
| Raise (e : exn)
| Getenv (name : string) (k : option str -> prog R)
| CudaIsAvailable (k : bool -> prog R)
| ReadGlobals (k : globals -> prog R)
| Assign (f : globals -> globals) (k : prog R)
| Call (X : Type) (c : ext X) (k : exn + X -> prog R)
| Acquire (k : prog R)
| Release (k : prog R).

Arguments Ret {R} r.
Arguments Raise {R} e.
Arguments Getenv {R} name k.
Arguments CudaIsAvailable {R} k.
Arguments ReadGlobals {R} k.
Arguments Assign {R} f k.
Arguments Call {R X} c k.
Arguments Acquire {R} k.
Arguments Release {R} k.

Fixpoint bind {A B} (p : prog A) (f : A -> prog B) : prog B :=
  match p with
  | Ret a => f a
  | Raise e => Raise e
  | Getenv n k => Getenv n (fun v => bind (k v) f)
  | CudaIsAvailable k => CudaIsAvailable (fun b => bind (k b) f)
  | ReadGlobals k => ReadGlobals (fun g => bind (k g) f)
  | Assign u k => Assign u (bind k f)
  | Call c k => Call c (fun o => bind (k o) f)
  | Acquire k => Acquire (bind k f)
  | Release k => Release (bind k f)
  end.

Declare Scope prog_scope.
Delimit Scope prog_scope with prog.
Notation "x <- p ;; q" := (bind p (fun x => q))
  (at level 61, p at next level, right associativity) : prog_scope.
Notation "p ;; q" := (bind p (fun _ => q))
  (at level 61, right associativity) : prog_scope.
Open Scope prog_scope.

(** [try: p except BaseException as e: h e] *)
Fixpoint try_except {A} (p : prog A) (h : exn -> prog A) : prog A :=
  match p with
  | Ret a => Ret a
  | Raise e => h e
  | Getenv n k => Getenv n (fun v => try_except (k v) h)
  | CudaIsAvailable k => CudaIsAvailable (fun b => try_except (k b) h)
  | ReadGlobals k => ReadGlobals (fun g => try_except (k g) h)
  | Assign u k => Assign u (try_except k h)
  | Call c k => Call c (fun o => try_except (k o) h)
  | Acquire k => Acquire (try_except k h)
  | Release k => Release (try_except k h)
  end.

(** The exit of [async with GENERATE_LOCK]: [__aexit__] releases the lock
    and does not swallow the exception. *)
Fixpoint released {A} (body : prog A) : prog A :=
  match body with
  | Ret a => Release (Ret a)
  | Raise e => Release (Raise e)
  | Getenv n k => Getenv n (fun v => released (k v))
  | CudaIsAvailable k => CudaIsAvailable (fun b => released (k b))
  | ReadGlobals k => ReadGlobals (fun g => released (k g))
  | Assign u k => Assign u (released k)
  | Call c k => Call c (fun o => released (k o))
  | Acquire k => Acquire (released k)
  | Release k => Release (released k)
  end.

(** [async with GENERATE_LOCK: body] *)
Definition async_with_GENERATE_LOCK {A} (body : prog A) : prog A :=
  Acquire (released body).

Definition getenv (name : string) : prog (option str) := Getenv name (fun v => Ret v).
Definition cuda_is_available : prog bool := CudaIsAvailable (fun b => Ret b).
Definition read_globals : prog globals := ReadGlobals (fun g => Ret g).
Definition assign (f : globals -> globals) : prog unit := Assign f (Ret tt).

(** A call that raises what the library raises. *)
Definition call {X} (c : ext X) : prog X :=
  Call c (fun o => match o with inl e => Raise e | inr x => Ret x end).

(* ================================================================== *)
(** ** Sequential execution *)

(** What a program runs against: the globals, the process environment, the
    hardware, and [GENERATE_LOCK]. *)
Record world : Type := {
  globs : globals;
  environ : string -> option str;
  cuda_available : bool;
  locked : bool
}.

Definition set_globs (g : globals) (w : world) : world :=
  {| globs := g; environ := environ w; cuda_available := cuda_available w;
     locked := locked w |}.
Definition set_locked (b : bool) (w : world) : world :=
  {| globs := globs w; environ := environ w; cuda_available := cuda_available w;
     locked := b |}.

Inductive event : Type :=
| EvGetenv (name : string)
| EvCudaIsAvailable
| EvEnter (X : Type) (c : ext X)
| EvExit (X : Type) (c : ext X) (o : exn + X)
| EvAcquire
| EvRelease.

Arguments EvEnter {X} c.
Arguments EvExit {X} c o.

(** [Blocked]: suspended for ever in [acquire()] on a lock nobody will
    release. *)
Inductive outcome (R : Type) : Type :=
| Returned (r : R)
| Raised (e : exn)
| Blocked.

Arguments Returned {R} r.
Arguments Raised {R} e.
Arguments Blocked {R}.

Record result (R : Type) : Type := {
  final : world;
  out : outcome R;
  trace : list event
}.

Definition emit {R} (evs : list event) (r : result R) : result R :=
  {| final := final r; out := out r; trace := evs ++ trace r |}.

(** One task run alone to its end. *)
Fixpoint run {R} (o : oracle) (p : prog R) (w : world) : result R :=
  match p with
  | Ret r => {| final := w; out := Returned r; trace := [] |}
  | Raise e => {| final := w; out := Raised e; trace := [] |}
  | Getenv n k => emit [EvGetenv n] (run o (k (environ w n)) w)
  | CudaIsAvailable k => emit [EvCudaIsAvailable] (run o (k (cuda_available w)) w)
  | ReadGlobals k => run o (k (globs w)) w
  | Assign f k => run o k (set_globs (f (globs w)) w)
  | Call c k => emit [EvEnter c; EvExit c (o _ c)] (run o (k (o _ c)) w)
  | Acquire k =>
      if locked w then {| final := w; out := Blocked; trace := [] |}
      else emit [EvAcquire] (run o k (set_locked true w))
  | Release k => emit [EvRelease] (run o k (set_locked false w))
  end.

Inductive lock_event : Type := LAcquire | LRelease.

(** The lock operations of a trace, in order. *)
Fixpoint lock_events (tr : list event) : list lock_event :=
  match tr with
  | [] => []
  | EvAcquire :: tr' => LAcquire :: lock_events tr'
  | EvRelease :: tr' => LRelease :: lock_events tr'
  | _ :: tr' => lock_events tr'
  end.

Definition is_call_event (f : forall X, ext X -> bool) (ev : event) : bool :=
  match ev with
  | EvEnter c => f _ c
  | EvExit c _ => f _ c
  | _ => false
  end.

(** The lock operations alternate from [held], the trace ends with the
    lock released, and the gated calls happen only while it is held. *)
Fixpoint gated_inside (held : bool) (tr : list event) : bool :=
  match tr with
  | [] => negb held
  | EvAcquire :: tr' => negb held && gated_inside true tr'
  | EvRelease :: tr' => held && gated_inside false tr'
  | ev :: tr' =>
      (negb (is_call_event (@is_gated) ev) || held) && gated_inside held tr'
  end.

Definition is_cuda_event (ev : event) : bool :=
  match ev with EvCudaIsAvailable => true | _ => false end.

(** The exception a collaborator raised in a trace, if one did. *)
Fixpoint raised_in (tr : list event) : option exn :=
  match tr with
  | [] => None
  | EvExit _ (inl e) :: _ => Some e
  | _ :: tr' => raised_in tr'
  end.

(* ================================================================== *)
(** ** The service *)

Section Service.

(** [str.lower], the interpreter's Unicode case mapping. *)
Variable lower : str -> str.

(** The module constants. *)
Variable cfg : config.

(** [resolve_device] (lines 63-69) *)
Definition resolve_device : prog str :=
  v <- getenv "KUGELAUDIO_DEVICE" ;;
  let configured := lower (strip (or_empty v)) in
  if negb (is_empty configured) then
    if startswith configured (lit "cuda") then
      available <- cuda_is_available ;;
      if negb available then Ret (lit "cpu") else Ret configured
    else Ret configured
  else
    available <- cuda_is_available ;;
    Ret (if available then lit "cuda" else lit "cpu").

(** [ensure_loaded] (lines 72-93) *)
Definition ensure_loaded : prog unit :=
  g <- read_globals ;;
  if is_some (MODEL g) && is_some (PROCESSOR g) then Ret tt
  else
    d <- resolve_device ;;
    assign (set_DEVICE d) ;;
    g1 <- read_globals ;;
    let dtype := if startswith (DEVICE g1) (lit "cuda") then bfloat16 else float32 in
    model <- call (ModelFromPretrained (MODEL_ID cfg) dtype) ;;
    g2 <- read_globals ;;
    model <- call (ModelTo model (DEVICE g2)) ;;
    call (ModelEval model) ;;
    call (StripEncoders model) ;;
    processor <- call (ProcessorFromPretrained (MODEL_ID cfg)) ;;
    assign (set_MODEL (Some model)) ;;
    assign (set_PROCESSOR (Some processor)).

(** [lifespan] up to its [yield]: the application's startup. *)
Definition lifespan : prog unit := ensure_loaded.

(** [healthz] (lines 109-115) *)
Definition healthz : prog Health :=
  g <- read_globals ;;
  Ret {| ok := is_some (MODEL g) && is_some (PROCESSOR g);
         model := MODEL_ID cfg;
         device := DEVICE g |}.

(** Line 129: [(payload.voice or "").strip() or DEFAULT_VOICE] *)
Definition tts_voice (payload : TtsRequest) : option str :=
  let v := strip (or_empty (voice payload)) in
  if is_empty v then DEFAULT_VOICE cfg else Some v.

(** Line 130 *)
Definition tts_cfg_scale (payload : TtsRequest) : float :=
  match cfgScale payload with
  | Some x => if float_truthy x && float_gt0 x then x else DEFAULT_CFG_SCALE cfg
  | None => DEFAULT_CFG_SCALE cfg
  end.

(** Line 131 *)
Definition tts_max_tokens (payload : TtsRequest) : Z :=
  match maxTokens payload with
  | Some n => if int_truthy n && (n >? 0)%Z then n else DEFAULT_MAX_TOKENS cfg
  | None => DEFAULT_MAX_TOKENS cfg
  end.

(** Lines 164-169: the [except] clauses, in order. *)
Definition tts_except (error : exn) : prog Response :=
  match error with
  | ValueError msg => Raise (HTTPException 400 msg (Some error))
  | HTTPException _ _ _ => Raise error
  | OtherException msg =>
      Raise (HTTPException 500 (lit "TTS generation failed: " ++ msg) (Some error))
  | BaseOnly _ => Raise error
  end.

(** Lines 134-163: the body of the [try]. *)
Definition tts_body (text : str) (voice : option str) (cfg_scale : float)
    (max_tokens : Z) : prog Response :=
  outputs <- async_with_GENERATE_LOCK (
    g1 <- read_globals ;;
    inputs <- call (ProcessorCall (PROCESSOR g1) text voice) ;;
    g2 <- read_globals ;;
    inputs <- call (InputsToDevice inputs (DEVICE g2)) ;;
    g3 <- read_globals ;;
    call (Generate (MODEL g3) inputs cfg_scale max_tokens)) ;;
  generated <- call (SpeechOutputs0 outputs) ;;
  audio <- (if isinstance_Tensor generated
            then call (TensorToNumpy generated)
            else call (NpAsarrayFloat32 generated)) ;;
  audio <- call (NpAsarraySqueeze audio) ;;
  g4 <- read_globals ;;
  rate <- call (SamplingRate (PROCESSOR g4)) ;;
  let sample_rate := match rate with Some r => r | None => 24000%Z end in
  data <- call (SfWriteWav audio sample_rate) ;;
  Ret {| content := data; media_type := lit "audio/wav" |}.

(** [tts] (lines 118-169) *)
Definition tts (payload : TtsRequest) : prog Response :=
  g <- read_globals ;;
  if is_none (MODEL g) || is_none (PROCESSOR g) then
    Raise (HTTPException 503 (lit "Model is not loaded") None)
  else
    let text := strip (text payload) in
    if is_empty text then
      Raise (HTTPException 400 (lit "text must not be empty") None)
    else if (len text >? TEXT_MAX_CHARS cfg)%Z then
      Raise (HTTPException 400
               (lit "text exceeds max length (" ++ str_of_int (TEXT_MAX_CHARS cfg)
                    ++ lit ")") None)
    else
      let voice := tts_voice payload in
      let cfg_scale := tts_cfg_scale payload in
      let max_tokens := tts_max_tokens payload in
      try_except (tts_body text voice cfg_scale max_tokens) tts_except.

End Service.

(* ================================================================== *)
(** ** Concurrent execution

    Requests are tasks of one event loop.  A task advances by atomic
    steps; a call into a library takes two, its entry and its exit, so that
    it has a duration.  Two kinds of scheduling are considered.  Under
    [Cooperative suspends] the running task keeps the loop until it
    finishes, or suspends in [acquire()] on a held lock, or is inside a
    call selected by [suspends] (a call that awaits).  [asyncio] is the
    loop the source runs on: the only [await] of [tts] is the acquisition
    of [GENERATE_LOCK], no library call is awaited.  [Preemptive] lets any
    task take the next step at any time.  The lock is a mutex: [acquire]
    proceeds when it is free; the order in which asyncio serves waiters is
    left open. *)

Inductive task (R : Type) : Type :=
| Running (p : prog R)
| InCall (X : Type) (c : ext X) (k : exn + X -> prog R).

Arguments Running {R} p.
Arguments InCall {R X} c k.

Definition finished {R} (t : task R) : bool :=
  match t with
  | Running (Ret _) | Running (Raise _) => true
  | _ => false
  end.

Definition awaits_lock {R} (t : task R) : bool :=
  match t with Running (Acquire _) => true | _ => false end.

Definition in_call {R} (f : forall X, ext X -> bool) (t : task R) : bool :=
  match t with InCall c _ => f _ c | _ => false end.

(** One step of one task; [None] when the task is finished or waits for
    the lock.  The oracle answers the call that returns at this step. *)
Definition task_exec {R} (o : oracle) (w : world) (t : task R)
  : option (list event * world * task R) :=
  match t with
  | Running (Ret _) | Running (Raise _) => None
  | Running (Getenv n k) => Some ([EvGetenv n], w, Running (k (environ w n)))
  | Running (CudaIsAvailable k) =>
      Some ([EvCudaIsAvailable], w, Running (k (cuda_available w)))
  | Running (ReadGlobals k) => Some ([], w, Running (k (globs w)))
  | Running (Assign f k) => Some ([], set_globs (f (globs w)) w, Running k)
  | Running (Call c k) => Some ([EvEnter c], w, InCall c k)
  | InCall c k => Some ([EvExit c (o _ c)], w, Running (k (o _ c)))
  | Running (Acquire k) =>
      if locked w then None else Some ([EvAcquire], set_locked true w, Running k)
  | Running (Release k) => Some ([EvRelease], set_locked false w, Running k)
  end.

Fixpoint update {A} (i : nat) (x : A) (l : list A) : list A :=
  match l, i with
  | [], _ => []
  | _ :: l', O => x :: l'
  | y :: l', S i' => y :: update i' x l'
  end.

Inductive discipline : Type :=
| Cooperative (suspends : forall X, ext X -> bool)
| Preemptive.

Definition asyncio : discipline := Cooperative (fun _ _ => false).

Record system (R : Type) : Type := {
  sworld : world;
  tasks : list (task R);
  current : option nat;          (* the task that has the loop *)
  history : list (nat * event)   (* what happened, by task *)
}.

(** The running task gives the loop back when it is finished, suspended
    in [acquire()], or inside a call that suspends. *)
Definition yields {R} (d : discipline) (w : world) (t : task R) : bool :=
  finished t || (awaits_lock t && locked w)
  || match d with
     | Cooperative suspends => in_call suspends t
     | Preemptive => false
     end.

Definition may_run (d : discipline) (cur : option nat) (i : nat) : bool :=
  match d, cur with
  | Preemptive, _ => true
  | Cooperative _, None => true
  | Cooperative _, Some j => Nat.eqb i j
  end.

(** Task [i] takes one step. *)
Definition sys_exec {R} (d : discipline) (o : oracle) (i : nat) (s : system R)
  : option (system R) :=
  if may_run d (current s) i then
    match nth_error (tasks s) i with
    | Some t =>
        match task_exec o (sworld s) t with
        | Some (evs, w', t') =>
            Some {| sworld := w';
                    tasks := update i t' (tasks s);
                    current := if yields d w' t' then None else Some i;
                    history := history s ++ map (pair i) evs |}
        | None => None
        end
    | None => None
    end
  else None.

Definition sys_step {R} (d : discipline) (s s' : system R) : Prop :=
  exists o i, sys_exec d o i s = Some s'.

Inductive reachable {R} (d : discipline) (s0 : system R) : system R -> Prop :=
| reach_start : reachable d s0 s0
| reach_step s s' : reachable d s0 s -> sys_step d s s' -> reachable d s0 s'.

(** A schedule: which task steps, and how the libraries answer then. *)
Fixpoint run_schedule {R} (d : discipline) (sched : list (nat * oracle))
    (s : system R) : option (system R) :=
  match sched with
  | [] => Some s
  | (i, o) :: sched' =>
      match sys_exec d o i s with
      | Some s' => run_schedule d sched' s'
      | None => None
      end
  end.

(** The state a schedule leads to (the starting state if the schedule
    cannot be followed). *)
Definition state_after {R} (d : discipline) (sched : list (nat * oracle))
    (s : system R) : system R :=
  match run_schedule d sched s with
  | Some s' => s'
  | None => s
  end.

(** Task [i] is inside a call selected by [f]. *)
Definition inside {R} (f : forall X, ext X -> bool) (s : system R) (i : nat) : bool :=
  match nth_error (tasks s) i with
  | Some t => in_call f t
  | None => false
  end.

(** Task [i] has entered a call selected by [f]. *)
Definition entered (f : forall X, ext X -> bool) (h : list (nat * event)) (i : nat) : bool :=
  existsb (fun e => Nat.eqb (fst e) i && is_call_event f (snd e)) h.

(** Task [i] is between the entry of its first pipeline call (step 4) and
    its end. *)
Definition in_pipeline {R} (s : system R) (i : nat) : bool :=
  entered (@is_pipeline) (history s) i &&
  match nth_error (tasks s) i with
  | Some t => negb (finished t)
  | None => false
  end.

(** ** Lock discipline of a program *)

Section Discipline.

(** The calls that need the lock. *)
Variable guard : forall X, ext X -> bool.

(** [disciplined h p]: started with the lock held ([h = true]) or not,
    [p] acquires only when it does not hold, releases only when it
    holds, makes guarded calls only while holding, and ends not
    holding, on every path. *)
Fixpoint disciplined {R} (h : bool) (p : prog R) : Prop :=
  match p with
  | Ret _ | Raise _ => h = false
  | Getenv _ k => forall v, disciplined h (k v)
  | CudaIsAvailable k => forall b, disciplined h (k b)
  | ReadGlobals k => forall g, disciplined h (k g)
  | Assign _ k => disciplined h k
  | Call c k => (guard c = true -> h = true) /\ forall o, disciplined h (k o)
  | Acquire k => h = false /\ disciplined true k
  | Release k => h = true /\ disciplined false k
  end.

Definition disciplined_task {R} (h : bool) (t : task R) : Prop :=
  match t with
  | Running p => disciplined h p
  | InCall c k => (guard c = true -> h = true) /\ forall o, disciplined h (k o)
  end.

End Discipline.

(** No acquisition on any path: the program never suspends. *)
Fixpoint never_awaits {R} (p : prog R) : Prop :=
  match p with
  | Ret _ | Raise _ => True
  | Getenv _ k => forall v, never_awaits (k v)
  | CudaIsAvailable k => forall b, never_awaits (k b)
  | ReadGlobals k => forall g, never_awaits (k g)
  | Assign _ k => never_awaits k
  | Call _ k => forall o, never_awaits (k o)
  | Acquire _ => False
  | Release k => never_awaits k
  end.

(** Every [await] comes before the first pipeline call, and that call is
    one of those made under the lock. *)
Fixpoint awaits_first {R} (p : prog R) : Prop :=
  match p with
  | Ret _ | Raise _ => True
  | Getenv _ k => forall v, awaits_first (k v)
  | CudaIsAvailable k => forall b, awaits_first (k b)
  | ReadGlobals k => forall g, awaits_first (k g)
  | Assign _ k => awaits_first k
  | Call c k =>
      if is_pipeline c then is_gated c = true /\ forall o, never_awaits (k o)
      else forall o, awaits_first (k o)
  | Acquire k => awaits_first k
  | Release k => awaits_first k
  end.

Definition never_awaits_task {R} (t : task R) : Prop :=
  match t with
  | Running p => never_awaits p
  | InCall _ k => forall o, never_awaits (k o)
  end.

Definition awaits_first_task {R} (t : task R) : Prop :=
  match t with
  | Running p => awaits_first p
  | InCall c k => is_pipeline c = false /\ forall o, awaits_first (k o)
  end.

(** At most one acquisition on any path. *)
Fixpoint acquires_once {R} (p : prog R) : Prop :=
  match p with
  | Ret _ | Raise _ => True
  | Getenv _ k => forall v, acquires_once (k v)
  | CudaIsAvailable k => forall b, acquires_once (k b)
  | ReadGlobals k => forall g, acquires_once (k g)
  | Assign _ k => acquires_once k
  | Call _ k => forall o, acquires_once (k o)
  | Acquire k => never_awaits k
  | Release k => acquires_once k
  end.

Definition acquires_once_task {R} (t : task R) : Prop :=
  match t with
  | Running p => acquires_once p
  | InCall _ k => forall o, acquires_once (k o)
  end.

(** The lock operations of task [i] in a history, in order. *)
Definition lock_events_of (i : nat) (h : list (nat * event)) : list lock_event :=
  lock_events (map snd (filter (fun e => Nat.eqb (fst e) i) h)).

(** Where a task stands with the lock, given what it did so far: it has
    not taken it, or holds it, or has given it back for good. *)
Definition lock_phase {R} (guard : forall X, ext X -> bool)
    (done : list lock_event) (t : task R) : Prop :=
  (done = [] /\ disciplined_task guard false t /\ acquires_once_task t)
  \/ (done = [LAcquire] /\ disciplined_task guard true t /\ never_awaits_task t)
  \/ (done = [LAcquire; LRelease]
      /\ disciplined_task guard false t /\ never_awaits_task t).

(** The lock is held by task [j]. *)
Definition owned (owner : option nat) (j : nat) : bool :=
  match owner with Some i => Nat.eqb i j | None => false end.

(** The lock is held exactly when [owner] is a task, and every task
    follows the lock discipline from where it stands. *)
Definition lock_invariant_at {R} (guard : forall X, ext X -> bool)
    (owner : option nat) (s : system R) : Prop :=
  locked (sworld s) = is_some owner
  /\ (forall i, owner = Some i -> nth_error (tasks s) i <> None)
  /\ forall j t, nth_error (tasks s) j = Some t ->
                 disciplined_task guard (owned owner j) t.

Definition lock_invariant {R} (guard : forall X, ext X -> bool) (s : system R) : Prop :=
  exists owner : option nat, lock_invariant_at guard owner s.

(** On the loop: a task that has entered the pipeline never awaits the
    lock again, and when it does not have the loop it is finished or
    suspended inside a call; a task that has not entered it still has its
    [await] first; and while the task that has the loop is in its pipeline
    nobody else holds the lock. *)
Definition loop_invariant_at {R} (suspends : forall X, ext X -> bool)
    (owner : option nat) (s : system R) : Prop :=
  (forall j t, nth_error (tasks s) j = Some t ->
     (entered (@is_pipeline) (history s) j = true ->
      never_awaits_task t
      /\ (current s <> Some j -> finished t = true \/ in_call suspends t = true))
     /\ (entered (@is_pipeline) (history s) j = false -> awaits_first_task t))
  /\ (forall j k, current s = Some j ->
                  entered (@is_pipeline) (history s) j = true ->
                  owner = Some k -> k = j).

Definition serving_invariant {R} (suspends : forall X, ext X -> bool)
    (s : system R) : Prop :=
  exists owner : option nat,
    lock_invariant_at (@is_gated) owner s /\ loop_invariant_at suspends owner s.

(** The device override as [resolve_device] sees it: trimmed and
    lowercased. *)
Definition configured_device (lower : str -> str) (w : world) : str :=
  lower (strip (or_empty (environ w "KUGELAUDIO_DEVICE"%string))).

(** [N] requests admitted together, none started yet. *)
Definition serving (cfg : config) (w : world) (payloads : list TtsRequest)
  : system Response :=
  {| sworld := w;
     tasks := map (fun payload => Running (tts cfg payload)) payloads;
     current := None;
     history := [] |}.

(** The request gets as far as the gate: the model is loaded and the text
    passes validation. *)
Definition reaches_gate (cfg : config) (g : globals) (payload : TtsRequest) : bool :=
  loaded g && negb (is_empty (strip (text payload)))
  && (len (strip (text payload)) <=? TEXT_MAX_CHARS cfg)%Z.

(** A request rejected by validation: status 400, raised by the handler
    itself before the gate and before any call into a library. *)
Definition validation_failure (r : result Response) : Prop :=
  exists detail, out r = Raised (HTTPException 400 detail None) /\ trace r = [].

(* ================================================================== *)
(** ** The parameter resolver as the specification words it *)

Module Spec.

(** voice: trimmed request value if non-empty, else the process default
    voice, else unset. *)
Definition resolved_voice (default_voice request_voice : option str) : option str :=
  match request_voice with
  | Some v =>
      match strip v with
      | [] => default_voice
      | trimmed => Some trimmed
      end
  | None => default_voice
  end.

(** cfgScale: request value if present and > 0, else the process default. *)
Definition resolved_cfg_scale (default_cfg_scale : float)
    (request_cfg_scale : option float) : float :=
  match request_cfg_scale with
  | Some x => if SFltb (S754_zero false) x then x else default_cfg_scale
  | None => default_cfg_scale
  end.

(** maxTokens: request value if present and > 0, else the process default. *)
Definition resolved_max_tokens (default_max_tokens : Z)
    (request_max_tokens : option Z) : Z :=
  match request_max_tokens with
  | Some n => if (0 <? n)%Z then n else default_max_tokens
  | None => default_max_tokens
  end.

End Spec.

(* ================================================================== *)
(** ** Sample data *)

Module Sample.

Definition cfg : config :=
  {| MODEL_ID := default_model_id;
     TEXT_MAX_CHARS := 4000;
     DEFAULT_CFG_SCALE := float_3;
     DEFAULT_MAX_TOKENS := 2048;
     DEFAULT_VOICE := None |}.

(** The same with a ceiling of three characters. *)
Definition tiny : config :=
  {| MODEL_ID := default_model_id;
     TEXT_MAX_CHARS := 3;
     DEFAULT_CFG_SCALE := float_3;
     DEFAULT_MAX_TOKENS := 2048;
     DEFAULT_VOICE := None |}.

Definition loaded_globals : globals :=
  {| MODEL := Some (Object 1); PROCESSOR := Some (Object 2); DEVICE := lit "cpu" |}.

Definition no_env : string -> option str := fun _ => None.

Definition env_device (value : str) : string -> option str :=
  fun name => if String.eqb name "KUGELAUDIO_DEVICE" then Some value else None.

Definition world_of (g : globals) (env : string -> option str) (cuda : bool) : world :=
  {| globs := g; environ := env; cuda_available := cuda; locked := false |}.

Definition cold : world := world_of initial_globals no_env false.
Definition warm : world := world_of loaded_globals no_env false.

(** Libraries that always succeed. *)
Definition happy : oracle :=
  fun X (c : ext X) =>
    match c in ext T return exn + T with
    | ModelFromPretrained _ _ => inr (Object 1)
    | ModelTo m _ => inr m
    | ModelEval _ => inr tt
    | StripEncoders _ => inr tt
    | ProcessorFromPretrained _ => inr (Object 2)
    | ProcessorCall _ _ _ => inr (Object 10)
    | InputsToDevice i _ => inr i
    | Generate _ _ _ _ => inr (Object 11)
    | SpeechOutputs0 _ => inr (Tensor 12)
    | TensorToNumpy _ => inr (Object 13)
    | NpAsarrayFloat32 _ => inr (Object 13)
    | NpAsarraySqueeze a => inr a
    | SamplingRate _ => inr (Some 24000%Z)
    | SfWriteWav _ _ => inr [Byte.x52; Byte.x49; Byte.x46; Byte.x46]
    end.

(** The processor rejects its input with [e]. *)
Definition encode_raises (e : exn) : oracle :=
  fun X (c : ext X) =>
    match c in ext T return exn + T with
    | ProcessorCall _ _ _ => inl e
    | c' => happy c'
    end.

(** The engine's generation routine raises [e]. *)
Definition generate_raises (e : exn) : oracle :=
  fun X (c : ext X) =>
    match c in ext T return exn + T with
    | Generate _ _ _ _ => inl e
    | c' => happy c'
    end.

Definition request (t : string) : TtsRequest :=
  {| text := lit t; voice := None; cfgScale := None; maxTokens := None |}.

Definition hello : TtsRequest := request "hello".
Definition blank : TtsRequest := request "   ".

Definition bad_voice : exn := ValueError (lit "unknown voice").
Definition out_of_memory : exn := OtherException (lit "CUDA out of memory").

(** Two requests admitted together on a loaded service. *)
Definition two_requests : system Response := serving cfg warm [hello; hello].

(** Task [i] takes [n] steps, the libraries succeeding. *)
Definition steps (i n : nat) : list (nat * oracle) := repeat (i, happy) n.

(** Task 0 has entered [MODEL.generate]; task 1 has read the globals and
    waits for the lock. *)
Definition generating : list (nat * oracle) :=
  steps 0 5 ++ steps 1 1 ++ steps 0 5.

(** Task 0 is suspended inside [MODEL.generate]; task 1 has come to the
    lock. *)
Definition awaiting_generation : list (nat * oracle) := steps 0 10 ++ steps 1 1.

(** Task 1 has run to its end; task 0 has entered the processor call. *)
Definition second_encoding : list (nat * oracle) := steps 1 23 ++ steps 0 4.

(** Task 0 has released the lock and entered step 7; task 1 has taken
    the lock and entered step 4. *)
Definition decoding_and_encoding : list (nat * oracle) :=
  steps 0 13 ++ steps 1 4.

End Sample.

(* ================================================================== *)
(** ** Readings of the specification that the code does not follow *)

Module AsStated.

(** Every exception raised during steps 4-8 surfaces as a server fault
    (status 500) wrapping it. *)
Definition generation_failures_are_server_faults (cfg : config) : Prop :=
  forall (o : oracle) (w : world) (payload : TtsRequest) (e : exn),
    locked w = false ->
    reaches_gate cfg (globs w) payload = true ->
    raised_in (trace (run o (tts cfg payload) w)) = Some e ->
    exists detail,
      out (run o (tts cfg payload) w) = Raised (HTTPException 500 detail (Some e)).

(** A request whose trimmed text is empty or longer than the ceiling
    fails with a client fault (status 400), in every state. *)
Definition invalid_text_is_client_fault (cfg : config) : Prop :=
  forall (o : oracle) (w : world) (payload : TtsRequest),
    strip (text payload) = []
    \/ (len (strip (text payload)) > TEXT_MAX_CHARS cfg)%Z ->
    exists detail cause,
      out (run o (tts cfg payload) w) = Raised (HTTPException 400 detail cause).

(** A request fails with a client fault (status 400) only when its
    trimmed text is empty or longer than the ceiling. *)
Definition client_fault_only_for_invalid_text (cfg : config) : Prop :=
  forall (o : oracle) (w : world) (payload : TtsRequest),
    (exists detail cause,
        out (run o (tts cfg payload) w) = Raised (HTTPException 400 detail cause)) ->
    strip (text payload) = []
    \/ (len (strip (text payload)) > TEXT_MAX_CHARS cfg)%Z.

End AsStated.

(* ================================================================== *)
(** ** More to observe in a run *)

(** [MODEL] and [PROCESSOR] are both set or both unset. *)
Definition paired (g : globals) : bool :=
  Bool.eqb (is_some (MODEL g)) (is_some (PROCESSOR g)).

(** No white space at either end. *)
Definition trimmed (s : str) : Prop := strip s = s.

(** A float that is neither a number [<= 0] nor a number [> 0]. *)
Definition is_nan (x : float) : bool :=
  match x with S754_nan => true | _ => false end.

(** The dtype the weights were asked for, if [from_pretrained] was called. *)
Fixpoint loaded_dtype (tr : list event) : option dtype :=
  match tr with
  | [] => None
  | EvEnter c :: tr' =>
      match c with
      | ModelFromPretrained _ dt => Some dt
      | _ => loaded_dtype tr'
      end
  | _ :: tr' => loaded_dtype tr'
  end.

Definition sf_write_result {X} (c : ext X) (o : exn + X)
  : option (obj * Z * list Byte.byte) :=
  match c in ext T return exn + T -> option (obj * Z * list Byte.byte) with
  | SfWriteWav audio rate =>
      fun o => match o with inr data => Some (audio, rate, data) | inl _ => None end
  | _ => fun _ => None
  end o.

(** What [sf.write] was given (audio, sample rate) and the bytes it
    produced, if it returned. *)
Fixpoint written (tr : list event) : option (obj * Z * list Byte.byte) :=
  match tr with
  | [] => None
  | EvExit c o :: tr' =>
      match sf_write_result c o with
      | Some r => Some r
      | None => written tr'
      end
  | _ :: tr' => written tr'
  end.

Definition speech_output_result {X} (c : ext X) (o : exn + X) : option obj :=
  match c in ext T return exn + T -> option obj with
  | SpeechOutputs0 _ =>
      fun o => match o with inr generated => Some generated | inl _ => None end
  | _ => fun _ => None
  end o.

(** [outputs.speech_outputs[0]], if the run got it. *)
Fixpoint generated_of (tr : list event) : option obj :=
  match tr with
  | [] => None
  | EvExit c o :: tr' =>
      match speech_output_result c o with
      | Some g => Some g
      | None => generated_of tr'
      end
  | _ :: tr' => generated_of tr'
  end.

(** Line 154, the tensor branch. *)
Definition is_tensor_to_numpy {X} (c : ext X) : bool :=
  match c with TensorToNumpy _ => true | _ => false end.

(** Line 156, the other branch. *)
Definition is_np_asarray {X} (c : ext X) : bool :=
  match c with NpAsarrayFloat32 _ => true | _ => false end.

(** The events [tts] may produce: the two lock operations and the calls
    of steps 4-8. *)
Definition is_tts_event (ev : event) : bool :=
  match ev with
  | EvAcquire | EvRelease => true
  | EvEnter c => is_pipeline c
  | EvExit c _ => is_pipeline c
  | _ => false
  end.

(** The entry of a call selected by [f]. *)
Definition is_enter (f : forall X, ext X -> bool) (ev : event) : bool :=
  match ev with EvEnter c => f _ c | _ => false end.

(** How many times a call selected by [f] was entered. *)
Definition entries (f : forall X, ext X -> bool) (tr : list event) : nat :=
  List.length (filter (is_enter f) tr).

(** What happened after the first call that raised. *)
Fixpoint after_raise (tr : list event) : list event :=
  match tr with
  | [] => []
  | EvExit _ (inl _) :: tr' => tr'
  | _ :: tr' => after_raise tr'
  end.

(** [bounded p n]: on every path [p] ends within [n] steps of
    [task_exec] (a call takes two). *)
Fixpoint bounded {R} (p : prog R) (n : nat) {struct p} : Prop :=
  match p with
  | Ret _ | Raise _ => True
  | Getenv _ k => match n with S m => forall v, bounded (k v) m | O => False end
  | CudaIsAvailable k =>
      match n with S m => forall b, bounded (k b) m | O => False end
  | ReadGlobals k => match n with S m => forall g, bounded (k g) m | O => False end
  | Assign _ k => match n with S m => bounded k m | O => False end
  | Call _ k => match n with S (S m) => forall o, bounded (k o) m | _ => False end
  | Acquire k => match n with S m => bounded k m | O => False end
  | Release k => match n with S m => bounded k m | O => False end
  end.

Definition bounded_task {R} (t : task R) (n : nat) : Prop :=
  match t with
  | Running p => bounded p n
  | InCall _ k => match n with S m => forall o, bounded (k o) m | O => False end
  end.

(** The tasks of a pool end within [n] steps altogether. *)
Fixpoint bounded_pool {R} (ts : list (task R)) (n : nat) : Prop :=
  match ts with
  | [] => True
  | t :: ts' =>
      exists b m, n = (b + m)%nat /\ bounded_task t b /\ bounded_pool ts' m
  end.

(** The task that has the loop exists and has not given it back. *)
Definition token_ok {R} (d : discipline) (s : system R) : Prop :=
  forall i, current s = Some i ->
            exists t, nth_error (tasks s) i = Some t
                      /\ yields d (sworld s) t = false.

(** Some task can take a step. *)
Definition can_step {R} (d : discipline) (s : system R) : Prop :=
  exists (i : nat) (o : oracle) (s' : system R), sys_exec d o i s = Some s'.

(** More sample data. *)
Module Fixture.

(** Unsigned decimal digits, as [int()] reads them; anything else is a
    [ValueError]. *)
Fixpoint digits (s : str) (acc : Z) : option Z :=
  match s with
  | [] => Some acc
  | c :: r =>
      if ((48 <=? c) && (c <=? 57))%N
      then digits r (10 * acc + Z.of_N (c - 48))%Z
      else None
  end.

Definition py_int (s : str) : option Z :=
  match s with
  | [] => None
  | 45%N :: r => match r with [] => None | _ => option_map Z.opp (digits r 0) end
  | _ => digits s 0
  end.

(** [float()] on the few spellings used below. *)
Definition py_float (s : str) : option float :=
  if list_eq_dec N.eq_dec s (lit "nan") then Some S754_nan
  else if list_eq_dec N.eq_dec s (lit "0") then Some (S754_zero false)
  else if list_eq_dec N.eq_dec s (lit "inf") then Some (S754_infinity false)
  else None.

Definition env_of (bindings : list (string * str)) : string -> option str :=
  fun name =>
    match find (fun b => String.eqb (fst b) name) bindings with
    | Some b => Some (snd b)
    | None => None
    end.

(** [from_pretrained] of the model fails; everything else succeeds. *)
Definition load_fails (e : exn) : oracle :=
  fun X (c : ext X) =>
    match c in ext T return exn + T with
    | ModelFromPretrained _ _ => inl e
    | c' => Sample.happy c'
    end.

(** The processor has no [sampling_rate]; the engine returns a plain
    array. *)
Definition plain_array_no_rate : oracle :=
  fun X (c : ext X) =>
    match c in ext T return exn + T with
    | SpeechOutputs0 _ => inr (Object 12)
    | SamplingRate _ => inr None
    | c' => Sample.happy c'
    end.

Definition partial_globals : globals :=
  {| MODEL := None; PROCESSOR := None; DEVICE := lit "cuda" |}.

End Fixture.

(* ================================================================== *)
(** * Properties *)

(** Case analysis on what the libraries answer along a run, and on the
    shape of a handler. *)
Ltac oracle_cases o :=
  repeat match goal with
         | |- context [match o ?X ?c with _ => _ end] =>
             let E := fresh "E" in destruct (o X c) as [[] | ] eqn:E; cbn
         | |- context [if isinstance_Tensor ?g then _ else _] =>
             destruct (isinstance_Tensor g); cbn
         end.

Ltac done := repeat split; first [discriminate | assumption | reflexivity].

Ltac walk :=
  repeat (cbn;
          match goal with
          | |- forall _, _ => intro
          | |- _ /\ _ => split
          | |- True => exact I
          | |- _ = _ => first [reflexivity | assumption | discriminate]
          | H : false = true |- _ => discriminate H
          | |- context [if ?b then _ else _] => destruct b
          | |- context [match ?x with inl _ => _ | inr _ => _ end] => destruct x
          | |- context [match ?x with ValueError _ => _ | _ => _ end] => destruct x
          end).

(** ** Python values *)

Lemma float_gt0_truthy (x : float) : float_gt0 x = true -> float_truthy x = true.
Proof. destruct x as [s | s | | s m e]; try destruct s; cbn; congruence. Qed.

Lemma float_and_gt0 (x : float) : float_truthy x && float_gt0 x = float_gt0 x.
Proof.
  destruct (float_gt0 x) eqn:Hgt.
  - now rewrite (float_gt0_truthy x Hgt).
  - apply andb_false_r.
Qed.

Lemma int_and_gt0 (n : Z) : int_truthy n && (n >? 0)%Z = (0 <? n)%Z.
Proof.
  unfold int_truthy.
  destruct (Z.eqb_spec n 0) as [-> | Hn]; [reflexivity |].
  cbn. rewrite Z.gtb_ltb. reflexivity.
Qed.

Lemma is_empty_nil (s : str) : is_empty s = true <-> s = [].
Proof. destruct s; cbn; split; congruence. Qed.

(** ** Parameter resolution *)

Section Resolver.

Variable cfg : config.

Lemma tts_voice_spec (payload : TtsRequest) :
  tts_voice cfg payload = Spec.resolved_voice (DEFAULT_VOICE cfg) (voice payload).
Proof.
  unfold tts_voice, Spec.resolved_voice, or_empty.
  destruct (voice payload) as [v |].
  - destruct (strip v); reflexivity.
  - reflexivity.
Qed.

Lemma tts_cfg_scale_spec (payload : TtsRequest) :
  tts_cfg_scale cfg payload
  = Spec.resolved_cfg_scale (DEFAULT_CFG_SCALE cfg) (cfgScale payload).
Proof.
  unfold tts_cfg_scale, Spec.resolved_cfg_scale.
  destruct (cfgScale payload) as [x |]; [| reflexivity].
  rewrite float_and_gt0. reflexivity.
Qed.

Lemma tts_max_tokens_spec (payload : TtsRequest) :
  tts_max_tokens cfg payload
  = Spec.resolved_max_tokens (DEFAULT_MAX_TOKENS cfg) (maxTokens payload).
Proof.
  unfold tts_max_tokens, Spec.resolved_max_tokens.
  destruct (maxTokens payload) as [n |]; [| reflexivity].
  rewrite int_and_gt0. reflexivity.
Qed.

(** C6.  The three values the handler computes at lines 129-131 are the
    ones first-match-wins resolution gives: the trimmed request voice if
    non-empty, else the process default voice (unset when there is
    none); the request cfgScale if present and > 0, else the default;
    the request maxTokens if present and > 0, else the default. *)
Theorem parameter_resolution (payload : TtsRequest) :
  tts_voice cfg payload = Spec.resolved_voice (DEFAULT_VOICE cfg) (voice payload)
  /\ tts_cfg_scale cfg payload
     = Spec.resolved_cfg_scale (DEFAULT_CFG_SCALE cfg) (cfgScale payload)
  /\ tts_max_tokens cfg payload
     = Spec.resolved_max_tokens (DEFAULT_MAX_TOKENS cfg) (maxTokens payload).
Proof.
  split; [apply tts_voice_spec |].
  split; [apply tts_cfg_scale_spec | apply tts_max_tokens_spec].
Qed.

End Resolver.

(** ** Device resolution *)

Section Device.

Variable lower : str -> str.

Lemma resolve_device_run (o : oracle) (w : world) :
  run o (resolve_device lower) w =
  let configured := configured_device lower w in
  if is_empty configured then
    {| final := w;
       out := Returned (if cuda_available w then lit "cuda" else lit "cpu");
       trace := [EvGetenv "KUGELAUDIO_DEVICE"; EvCudaIsAvailable] |}
  else if startswith configured (lit "cuda") then
    {| final := w;
       out := Returned (if cuda_available w then configured else lit "cpu");
       trace := [EvGetenv "KUGELAUDIO_DEVICE"; EvCudaIsAvailable] |}
  else
    {| final := w;
       out := Returned configured;
       trace := [EvGetenv "KUGELAUDIO_DEVICE"] |}.
Proof.
  unfold resolve_device, configured_device. cbn.
  destruct (is_empty _); cbn.
  - destruct (cuda_available w); reflexivity.
  - destruct (startswith _ _); cbn; [| reflexivity].
    destruct (cuda_available w); reflexivity.
Qed.

(** C7.  An override that asks for the accelerated device (it starts
    with "cuda") while none is available yields "cpu", as a normal
    return; with no override, "cuda" is chosen exactly when it is
    available, else "cpu".  Nothing is changed on the way. *)
Theorem resolve_device_policy (o : oracle) (w : world) :
  (is_empty (configured_device lower w) = false ->
   startswith (configured_device lower w) (lit "cuda") = true ->
   cuda_available w = false ->
   out (run o (resolve_device lower) w) = Returned (lit "cpu"))
  /\ (is_empty (configured_device lower w) = true ->
      out (run o (resolve_device lower) w)
      = Returned (if cuda_available w then lit "cuda" else lit "cpu"))
  /\ final (run o (resolve_device lower) w) = w.
Proof.
  rewrite resolve_device_run. cbv zeta.
  split; [| split].
  - intros -> -> ->. reflexivity.
  - intros ->. reflexivity.
  - destruct (is_empty _); [reflexivity |].
    destruct (startswith _ _); reflexivity.
Qed.

(** C10.  A non-empty override that does not start with "cuda" is
    returned as configured (trimmed and lowercased), whatever the
    hardware, and availability is not even queried; whenever a non-empty
    override is not what is returned, it starts with "cuda", the
    accelerator is unavailable and the result is "cpu". *)
Theorem resolve_device_other_override (o : oracle) (w : world) :
  is_empty (configured_device lower w) = false ->
  (startswith (configured_device lower w) (lit "cuda") = false ->
   out (run o (resolve_device lower) w) = Returned (configured_device lower w)
   /\ existsb is_cuda_event (trace (run o (resolve_device lower) w)) = false)
  /\ (out (run o (resolve_device lower) w) <> Returned (configured_device lower w) ->
      startswith (configured_device lower w) (lit "cuda") = true
      /\ cuda_available w = false
      /\ out (run o (resolve_device lower) w) = Returned (lit "cpu")).
Proof.
  intros Hne. rewrite resolve_device_run. cbv zeta. rewrite Hne.
  split.
  - intros ->. split; reflexivity.
  - destruct (startswith _ _); cbn.
    + destruct (cuda_available w); cbn; intros H; [now contradiction H | auto].
    + intros H. now contradiction H.
Qed.

End Device.

(** ** Model lifecycle *)

Section Lifecycle.

Variable lower : str -> str.
Variable cfg : config.

Lemma loaded_inv (g : globals) :
  loaded g = true -> exists m p, MODEL g = Some m /\ PROCESSOR g = Some p.
Proof.
  unfold loaded. destruct (MODEL g) as [m |], (PROCESSOR g) as [p |];
    cbn; try discriminate.
  intros _. now exists m, p.
Qed.

Lemma ensure_loaded_noop (o : oracle) (w : world) :
  loaded (globs w) = true ->
  run o (ensure_loaded lower cfg) w
  = {| final := w; out := Returned tt; trace := [] |}.
Proof.
  intros H. unfold ensure_loaded. cbn.
  unfold loaded in H. rewrite H. reflexivity.
Qed.

(** A load that returns has published both the engine and the processor. *)
Lemma ensure_loaded_loads (o : oracle) (w : world) :
  out (run o (ensure_loaded lower cfg) w) = Returned tt ->
  loaded (globs (final (run o (ensure_loaded lower cfg) w))) = true.
Proof.
  unfold ensure_loaded. cbn.
  destruct (is_some (MODEL (globs w)) && is_some (PROCESSOR (globs w))) eqn:Hl.
  - intros _. exact Hl.
  - unfold resolve_device. cbn.
    repeat match goal with
           | |- context [if ?b then _ else _] => destruct b; cbn
           | |- context [match o ?X ?c with _ => _ end] =>
               destruct (o X c); cbn
           end; try discriminate; reflexivity.
Qed.

(** C8.  With both the engine and the processor loaded, [ensure_loaded]
    returns at once: no library is called (no reload), the environment
    and the hardware are not consulted (no re-validation), and the
    process-wide state is unchanged.  Hence a second call after one that
    returned is a no-op. *)
Theorem ensure_loaded_idempotent (o : oracle) (w : world) :
  (loaded (globs w) = true ->
   run o (ensure_loaded lower cfg) w
   = {| final := w; out := Returned tt; trace := [] |})
  /\ (forall o', out (run o (ensure_loaded lower cfg) w) = Returned tt ->
      run o' (ensure_loaded lower cfg) (final (run o (ensure_loaded lower cfg) w))
      = {| final := final (run o (ensure_loaded lower cfg) w);
           out := Returned tt; trace := [] |}).
Proof.
  split.
  - apply ensure_loaded_noop.
  - intros o' H. apply ensure_loaded_noop. now apply ensure_loaded_loads.
Qed.

(** C9.  In every state [healthz] returns the ready flag (true exactly
    when both the engine and the processor are loaded), the configured
    model identifier and the current device; it calls no library, so it
    loads nothing, and it leaves the globals, the lock and everything
    else as they were. *)
Theorem healthz_reports (o : oracle) (w : world) :
  run o (healthz cfg) w
  = {| final := w;
       out := Returned {| ok := loaded (globs w);
                          model := MODEL_ID cfg;
                          device := DEVICE (globs w) |};
       trace := [] |}
  /\ (loaded (globs w) = true <->
      MODEL (globs w) <> None /\ PROCESSOR (globs w) <> None).
Proof.
  split; [reflexivity |].
  unfold loaded.
  destruct (MODEL (globs w)), (PROCESSOR (globs w)); cbn;
    split; try discriminate; try (intros [? ?]; congruence);
    intros _; split; discriminate.
Qed.

End Lifecycle.

(** ** One request *)

Section Request.

Variable cfg : config.

Lemma reaches_gate_inv (g : globals) (payload : TtsRequest) :
  reaches_gate cfg g payload = true ->
  loaded g = true
  /\ is_empty (strip (text payload)) = false
  /\ (len (strip (text payload)) >? TEXT_MAX_CHARS cfg)%Z = false.
Proof.
  unfold reaches_gate. intros H.
  apply andb_prop in H as [H Hlen]. apply andb_prop in H as [Hl He].
  repeat split; [exact Hl | now apply negb_true_iff in He |].
  rewrite Z.gtb_ltb. apply Z.ltb_ge. now apply Z.leb_le.
Qed.

(** Before the gate: the three rejections of lines 120-127. *)
Lemma tts_not_loaded (o : oracle) (w : world) (payload : TtsRequest) :
  loaded (globs w) = false ->
  run o (tts cfg payload) w
  = {| final := w;
       out := Raised (HTTPException 503 (lit "Model is not loaded") None);
       trace := [] |}.
Proof.
  unfold loaded, tts, is_none. cbn. intros H.
  rewrite <- negb_andb, H. reflexivity.
Qed.

Lemma tts_empty_text (o : oracle) (w : world) (payload : TtsRequest) :
  loaded (globs w) = true ->
  is_empty (strip (text payload)) = true ->
  run o (tts cfg payload) w
  = {| final := w;
       out := Raised (HTTPException 400 (lit "text must not be empty") None);
       trace := [] |}.
Proof.
  unfold loaded, tts, is_none. cbn. intros H He.
  rewrite <- negb_andb, H, He. reflexivity.
Qed.

Lemma tts_text_too_long (o : oracle) (w : world) (payload : TtsRequest) :
  loaded (globs w) = true ->
  is_empty (strip (text payload)) = false ->
  (len (strip (text payload)) >? TEXT_MAX_CHARS cfg)%Z = true ->
  run o (tts cfg payload) w
  = {| final := w;
       out := Raised (HTTPException 400
                (lit "text exceeds max length (" ++ str_of_int (TEXT_MAX_CHARS cfg)
                     ++ lit ")") None);
       trace := [] |}.
Proof.
  unfold loaded, tts, is_none. cbn. intros H He Hlen.
  rewrite <- negb_andb, H, He, Hlen. reflexivity.
Qed.

(** Past validation the handler is the [try] statement. *)
Lemma tts_admitted (o : oracle) (w : world) (payload : TtsRequest) :
  reaches_gate cfg (globs w) payload = true ->
  run o (tts cfg payload) w
  = run o (try_except
             (tts_body (strip (text payload)) (tts_voice cfg payload)
                       (tts_cfg_scale cfg payload) (tts_max_tokens cfg payload))
             tts_except) w.
Proof.
  intros H. apply reaches_gate_inv in H as (Hl & He & Hlen).
  unfold loaded in Hl. unfold tts, is_none. cbn.
  rewrite <- negb_andb, Hl, He, Hlen. reflexivity.
Qed.

Lemma tts_gate_run (o : oracle) (w : world) (payload : TtsRequest) :
  locked w = false ->
  out (run o (tts cfg payload) w) <> Blocked
  /\ final (run o (tts cfg payload) w) = w
  /\ lock_events (trace (run o (tts cfg payload) w))
     = (if reaches_gate cfg (globs w) payload then [LAcquire; LRelease] else [])
  /\ gated_inside false (trace (run o (tts cfg payload) w)) = true.
Proof.
  intros Hfree.
  destruct (reaches_gate cfg (globs w) payload) eqn:Hg.
  - rewrite (tts_admitted o w payload Hg).
    unfold tts_body, async_with_GENERATE_LOCK. cbn. rewrite Hfree. cbn.
    assert (Hw : set_locked false (set_locked true w) = w)
      by (destruct w; cbn in *; now subst).
    oracle_cases o; rewrite ?Hw; done.
  - unfold reaches_gate in Hg.
    destruct (loaded (globs w)) eqn:Hl; cbn in Hg.
    + destruct (is_empty (strip (text payload))) eqn:He; cbn in Hg.
      * rewrite (tts_empty_text o w payload Hl He). done.
      * rewrite (tts_text_too_long o w payload Hl He).
        -- done.
        -- rewrite Z.gtb_ltb. apply Z.ltb_lt. apply Z.leb_gt. exact Hg.
    + rewrite (tts_not_loaded o w payload Hl). done.
Qed.

(** The resolved parameters are what the processor and the engine are
    called with. *)
Lemma resolved_parameters_used (o : oracle) (w : world) (payload : TtsRequest) :
  locked w = false ->
  reaches_gate cfg (globs w) payload = true ->
  nth_error (trace (run o (tts cfg payload) w)) 1
  = Some (EvEnter (ProcessorCall (PROCESSOR (globs w)) (strip (text payload))
                                 (tts_voice cfg payload)))
  /\ forall inputs inputs',
       o _ (ProcessorCall (PROCESSOR (globs w)) (strip (text payload))
                          (tts_voice cfg payload)) = inr inputs ->
       o _ (InputsToDevice inputs (DEVICE (globs w))) = inr inputs' ->
       nth_error (trace (run o (tts cfg payload) w)) 5
       = Some (EvEnter (Generate (MODEL (globs w)) inputs'
                                 (tts_cfg_scale cfg payload)
                                 (tts_max_tokens cfg payload))).
Proof.
  intros Hfree Hg. rewrite (tts_admitted o w payload Hg).
  unfold tts_body, async_with_GENERATE_LOCK. cbn. rewrite Hfree. cbn.
  split; [reflexivity |].
  intros inputs inputs' H1 H2. rewrite H1. cbn. rewrite H2. reflexivity.
Qed.

(** C1.  Run from a free gate, a request never stays suspended; if it
    reaches the gate it acquires it once and releases it once, whatever
    the libraries do (return or raise, at any step), and otherwise does
    not touch it; the calls of the critical section lie between the two.
    It ends with the gate free and the state as it found it, so the next
    request, whatever it is, does the same. *)
Theorem gate_released_on_every_exit (o : oracle) (w : world) (payload : TtsRequest) :
  locked w = false ->
  out (run o (tts cfg payload) w) <> Blocked
  /\ locked (final (run o (tts cfg payload) w)) = false
  /\ lock_events (trace (run o (tts cfg payload) w))
     = (if reaches_gate cfg (globs w) payload then [LAcquire; LRelease] else [])
  /\ gated_inside false (trace (run o (tts cfg payload) w)) = true
  /\ forall (o' : oracle) (payload' : TtsRequest),
       out (run o' (tts cfg payload') (final (run o (tts cfg payload) w))) <> Blocked
       /\ lock_events
            (trace (run o' (tts cfg payload') (final (run o (tts cfg payload) w))))
          = (if reaches_gate cfg (globs w) payload'
             then [LAcquire; LRelease] else []).
Proof.
  intros Hfree.
  destruct (tts_gate_run o w payload Hfree) as (Hout & Hfin & Hlock & Hin).
  rewrite Hfin.
  repeat split; try assumption.
  - now destruct (tts_gate_run o' w payload' Hfree).
  - now destruct (tts_gate_run o' w payload' Hfree) as (_ & _ & H & _).
Qed.

End Request.

Section Errors.

Variable cfg : config.

Lemma tts_raised_run (o : oracle) (w : world) (payload : TtsRequest) :
  locked w = false ->
  reaches_gate cfg (globs w) payload = true ->
  match raised_in (trace (run o (tts cfg payload) w)) with
  | Some e =>
      out (run o (tts cfg payload) w)
      = Raised match e with
               | ValueError msg => HTTPException 400 msg (Some e)
               | OtherException msg =>
                   HTTPException 500 (lit "TTS generation failed: " ++ msg) (Some e)
               | HTTPException _ _ _ | BaseOnly _ => e
               end
  | None =>
      exists data,
        out (run o (tts cfg payload) w)
        = Returned {| content := data; media_type := lit "audio/wav" |}
  end.
Proof.
  intros Hfree Hg. rewrite (tts_admitted cfg o w payload Hg).
  unfold tts_body, async_with_GENERATE_LOCK. cbn. rewrite Hfree. cbn.
  oracle_cases o; try reflexivity; eexists; reflexivity.
Qed.

(** C4, as the code has it.  For a request that passes validation with
    the engine loaded, an exception raised by a library during steps 4-8
    is surfaced by its class: a [ValueError] as status 400 with
    [str(error)] as detail; any other [Exception] that is not an
    [HTTPException] as status 500 with detail "TTS generation failed: "
    followed by [str(error)]; both chained to their cause.  An
    [HTTPException] and an exception outside [Exception] propagate as
    they are. *)
Theorem generation_errors_by_class (o : oracle) (w : world) (payload : TtsRequest)
    (e : exn) :
  locked w = false ->
  reaches_gate cfg (globs w) payload = true ->
  raised_in (trace (run o (tts cfg payload) w)) = Some e ->
  out (run o (tts cfg payload) w)
  = Raised match e with
           | ValueError msg => HTTPException 400 msg (Some e)
           | OtherException msg =>
               HTTPException 500 (lit "TTS generation failed: " ++ msg) (Some e)
           | HTTPException _ _ _ | BaseOnly _ => e
           end.
Proof.
  intros Hfree Hg He.
  pose proof (tts_raised_run o w payload Hfree Hg) as H.
  rewrite He in H. exact H.
Qed.

(** When no library raises, the request returns the encoded audio. *)
Lemma tts_returns_audio (o : oracle) (w : world) (payload : TtsRequest) :
  locked w = false ->
  reaches_gate cfg (globs w) payload = true ->
  raised_in (trace (run o (tts cfg payload) w)) = None ->
  exists data,
    out (run o (tts cfg payload) w)
    = Returned {| content := data; media_type := lit "audio/wav" |}.
Proof.
  intros Hfree Hg He.
  pose proof (tts_raised_run o w payload Hfree Hg) as H.
  rewrite He in H. exact H.
Qed.

(** With a valid text the run either stays at the gate or leaves a
    trace. *)
Lemma tts_admitted_not_rejected (o : oracle) (w : world) (payload : TtsRequest) :
  reaches_gate cfg (globs w) payload = true ->
  ~ validation_failure (run o (tts cfg payload) w).
Proof.
  intros Hg (detail & Hout & Htr).
  rewrite (tts_admitted cfg o w payload Hg) in Hout, Htr.
  unfold tts_body, async_with_GENERATE_LOCK in Hout, Htr. cbn in Hout, Htr.
  destruct (locked w); cbn in Hout, Htr; discriminate.
Qed.

(** C5, as the code has it.  With the engine and the processor loaded, a
    request is rejected by validation (status 400 raised before the gate
    and before any library is called) exactly when its trimmed text is
    empty or longer than the ceiling; the detail of the too-long
    rejection contains the ceiling in decimal.  A text that is empty
    after trimming never yields status 500, in any state.  When the
    engine or the processor is not loaded every request gets status 503,
    whatever its text. *)
Theorem validation_rejections (o : oracle) (w : world) (payload : TtsRequest) :
  (loaded (globs w) = true ->
   (validation_failure (run o (tts cfg payload) w) <->
    strip (text payload) = []
    \/ (len (strip (text payload)) > TEXT_MAX_CHARS cfg)%Z))
  /\ (loaded (globs w) = true ->
      strip (text payload) = [] ->
      out (run o (tts cfg payload) w)
      = Raised (HTTPException 400 (lit "text must not be empty") None))
  /\ (loaded (globs w) = true ->
      strip (text payload) <> [] ->
      (len (strip (text payload)) > TEXT_MAX_CHARS cfg)%Z ->
      out (run o (tts cfg payload) w)
      = Raised (HTTPException 400
                  (lit "text exceeds max length ("
                       ++ str_of_int (TEXT_MAX_CHARS cfg) ++ lit ")") None))
  /\ (strip (text payload) = [] ->
      forall detail cause,
        out (run o (tts cfg payload) w) <> Raised (HTTPException 500 detail cause))
  /\ (loaded (globs w) = false ->
      out (run o (tts cfg payload) w)
      = Raised (HTTPException 503 (lit "Model is not loaded") None)).
Proof.
  assert (Hempty : loaded (globs w) = true -> strip (text payload) = [] ->
                   run o (tts cfg payload) w
                   = {| final := w;
                        out := Raised (HTTPException 400
                                         (lit "text must not be empty") None);
                        trace := [] |}).
  { intros Hl He. apply tts_empty_text; [exact Hl | now apply is_empty_nil]. }
  assert (Hlong : loaded (globs w) = true -> strip (text payload) <> [] ->
                  (len (strip (text payload)) > TEXT_MAX_CHARS cfg)%Z ->
                  run o (tts cfg payload) w
                  = {| final := w;
                       out := Raised (HTTPException 400
                                (lit "text exceeds max length ("
                                     ++ str_of_int (TEXT_MAX_CHARS cfg) ++ lit ")")
                                None);
                       trace := [] |}).
  { intros Hl He Hlen. apply tts_text_too_long; [exact Hl | |].
    - destruct (is_empty (strip (text payload))) eqn:E; [| reflexivity].
      apply is_empty_nil in E. contradiction.
    - apply Z.gtb_lt. lia. }
  split; [| split; [| split; [| split]]].
  - intros Hl. split.
    + intros Hv.
      destruct (strip (text payload)) as [| c t] eqn:Et; [now left | right].
      destruct (Z.gtb_spec (len (c :: t)) (TEXT_MAX_CHARS cfg)) as [Hgt | Hle];
        [lia |].
      exfalso. apply (tts_admitted_not_rejected o w payload); [| exact Hv].
      unfold reaches_gate. rewrite Hl, Et. cbn [is_empty negb andb].
      apply Z.leb_le. exact Hle.
    + intros [He | Hlen].
      * rewrite (Hempty Hl He). eexists. split; reflexivity.
      * destruct (strip (text payload)) as [| c t] eqn:Et.
        -- rewrite (Hempty Hl eq_refl). eexists. split; reflexivity.
        -- rewrite Hlong; [| exact Hl | discriminate | exact Hlen].
           eexists. split; reflexivity.
  - intros Hl He. now rewrite (Hempty Hl He).
  - intros Hl He Hlen. now rewrite (Hlong Hl He Hlen).
  - intros He detail cause.
    destruct (loaded (globs w)) eqn:Hl.
    + rewrite (Hempty eq_refl He). cbn. discriminate.
    + rewrite (tts_not_loaded cfg o w payload Hl). cbn. discriminate.
  - intros Hl. now rewrite (tts_not_loaded cfg o w payload Hl).
Qed.

End Errors.

(** ** Concurrent requests *)

Lemma nth_error_update_eq {A} (l : list A) (i : nat) (x y : A) :
  nth_error l i = Some y -> nth_error (update i x l) i = Some x.
Proof.
  revert i. induction l as [| a l IH]; intros [| i]; cbn; try discriminate.
  - reflexivity.
  - apply IH.
Qed.

Lemma nth_error_update_neq {A} (l : list A) (i j : nat) (x : A) :
  i <> j -> nth_error (update i x l) j = nth_error l j.
Proof.
  revert i j. induction l as [| a l IH]; intros [| i] [| j] H; cbn;
    try reflexivity.
  - contradiction.
  - apply IH. congruence.
Qed.

Lemma entered_app (f : forall X, ext X -> bool) (h : list (nat * event))
    (i j : nat) (evs : list event) :
  entered f (h ++ map (pair i) evs) j
  = entered f h j || (Nat.eqb i j && existsb (is_call_event f) evs).
Proof.
  unfold entered. rewrite existsb_app. f_equal.
  induction evs as [| ev evs IH]; cbn.
  - now rewrite andb_false_r.
  - rewrite IH. destruct (Nat.eqb i j); cbn; reflexivity.
Qed.

Lemma owned_eq (owner : option nat) (i j : nat) :
  owned owner i = true -> owned owner j = true -> i = j.
Proof.
  destruct owner as [k |]; cbn; [| discriminate].
  intros Hi Hj. apply Nat.eqb_eq in Hi, Hj. congruence.
Qed.

Lemma owned_owner (owner : option nat) (i : nat) :
  owned owner i = true -> owner = Some i.
Proof.
  destruct owner as [k |]; cbn; [| discriminate].
  intros H. apply Nat.eqb_eq in H. now subst.
Qed.

(** What a step of the system is made of. *)
Lemma sys_exec_inv {R} (d : discipline) (o : oracle) (i : nat) (s s' : system R) :
  sys_exec d o i s = Some s' ->
  exists t evs w' t',
    may_run d (current s) i = true
    /\ nth_error (tasks s) i = Some t
    /\ task_exec o (sworld s) t = Some (evs, w', t')
    /\ s' = {| sworld := w';
               tasks := update i t' (tasks s);
               current := if yields d w' t' then None else Some i;
               history := history s ++ map (pair i) evs |}.
Proof.
  unfold sys_exec.
  destruct (may_run d (current s) i) eqn:Hrun; [| discriminate].
  destruct (nth_error (tasks s) i) as [t |] eqn:Ei; [| discriminate].
  destruct (task_exec o (sworld s) t) as [[[evs w'] t'] |] eqn:Et;
    [| discriminate].
  intros [= <-]. exists t, evs, w', t'. auto.
Qed.

Lemma run_schedule_reachable {R} (d : discipline) (sched : list (nat * oracle))
    (s0 s s' : system R) :
  reachable d s0 s -> run_schedule d sched s = Some s' -> reachable d s0 s'.
Proof.
  revert s. induction sched as [| [i o] sched IH]; cbn; intros s Hs H.
  - now injection H as <-.
  - destruct (sys_exec d o i s) as [s1 |] eqn:E; [| discriminate].
    apply (IH s1); [| exact H].
    eapply reach_step; [exact Hs |]. now exists o, i.
Qed.

Lemma state_after_reachable {R} (d : discipline) (sched : list (nat * oracle))
    (s0 : system R) :
  reachable d s0 (state_after d sched s0).
Proof.
  unfold state_after. destruct (run_schedule d sched s0) as [s |] eqn:E.
  - apply (run_schedule_reachable sched (reach_start d s0) E).
  - constructor.
Qed.

Section Exclusion.

Variable guard : forall X, ext X -> bool.

(** What one step does to the lock and to the stepping task's standing. *)
Lemma task_exec_disciplined {R} (o : oracle) (w w' : world) (t t' : task R)
    (evs : list event) (h : bool) :
  task_exec o w t = Some (evs, w', t') ->
  disciplined_task guard h t ->
  (locked w' = locked w /\ disciplined_task guard h t')
  \/ (locked w = false /\ h = false /\ locked w' = true
      /\ disciplined_task guard true t')
  \/ (h = true /\ locked w' = false /\ disciplined_task guard false t').
Proof.
  destruct t as [p | X c k]; [destruct p |]; cbn; intros H D;
    try discriminate.
  - injection H as <- <- <-. left. split; [reflexivity | apply D].
  - injection H as <- <- <-. left. split; [reflexivity | apply D].
  - injection H as <- <- <-. left. split; [reflexivity | apply D].
  - injection H as <- <- <-. left. split; [reflexivity | apply D].
  - injection H as <- <- <-. left. split; [reflexivity | exact D].
  - destruct (locked w) eqn:L; [discriminate |].
    injection H as <- <- <-. right. left. destruct D as [-> D]. auto.
  - injection H as <- <- <-. right. right. destruct D as [-> D]. auto.
  - injection H as <- <- <-. left. split; [reflexivity | apply D].
Qed.

(** A step keeps the invariant; the owner stays, or becomes the stepping
    task, or nobody. *)
Lemma lock_invariant_at_step {R} (d : discipline) (o : oracle) (i : nat)
    (owner : option nat) (s s' : system R) :
  lock_invariant_at guard owner s ->
  sys_exec d o i s = Some s' ->
  exists owner',
    lock_invariant_at guard owner' s'
    /\ (owner' = owner \/ owner' = Some i \/ owner' = None).
Proof.
  intros (Hl & Hr & Ht) H.
  destruct (sys_exec_inv d o i s H) as (t & evs & w' & t' & _ & Ei & Et & ->).
  assert (Hsame : forall j, nth_error (tasks s) j <> None ->
                            nth_error (update i t' (tasks s)) j <> None).
  { intros j Hj. destruct (Nat.eq_dec i j) as [<- | Hne].
    - now rewrite (nth_error_update_eq _ _ t' Ei).
    - now rewrite (nth_error_update_neq _ t' Hne). }
  destruct (@task_exec_disciplined _ _ _ _ _ _ _ _ Et (Ht i t Ei))
    as [(Hw & D) | [(Hw & Ho & Hw' & D) | (Ho & Hw' & D)]].
  - exists owner. split; [| now left].
    split; [cbn; congruence |]. split; [cbn; auto |].
    cbn. intros j u Hj. destruct (Nat.eq_dec i j) as [<- | Hne].
    + rewrite (nth_error_update_eq _ _ t' Ei) in Hj. injection Hj as <-. exact D.
    + rewrite (nth_error_update_neq _ t' Hne) in Hj. now apply Ht.
  - exists (Some i). split; [| right; now left].
    split; [exact Hw' |].
    split; [cbn; intros k Hk; injection Hk as Hk; subst k; apply Hsame;
            rewrite Ei; discriminate |].
    assert (owner = None) as ->
        by (destruct owner; [cbn in Hl; congruence | reflexivity]).
    cbn. intros j u Hj. destruct (Nat.eq_dec i j) as [<- | Hne].
    + rewrite (nth_error_update_eq _ _ t' Ei) in Hj. injection Hj as <-.
      rewrite Nat.eqb_refl. exact D.
    + rewrite (nth_error_update_neq _ t' Hne) in Hj.
      apply Nat.eqb_neq in Hne. rewrite Hne. now apply (Ht j u).
  - exists None. split; [| right; now right].
    split; [exact Hw' |]. split; [discriminate |].
    cbn. intros j u Hj. destruct (Nat.eq_dec i j) as [<- | Hne].
    + rewrite (nth_error_update_eq _ _ t' Ei) in Hj. injection Hj as <-. exact D.
    + rewrite (nth_error_update_neq _ t' Hne) in Hj.
      specialize (Ht j u Hj).
      apply owned_owner in Ho. subst owner. cbn in Ht |- *.
      apply Nat.eqb_neq in Hne. now rewrite Hne in Ht.
Qed.

Lemma lock_invariant_reachable {R} (d : discipline) (s0 s : system R) :
  lock_invariant guard s0 -> reachable d s0 s -> lock_invariant guard s.
Proof.
  intros H0. induction 1 as [| s s' _ IH (o & i & Hstep)]; [exact H0 |].
  destruct IH as [owner Inv].
  destruct (lock_invariant_at_step d o i Inv Hstep) as (owner' & Inv' & _).
  now exists owner'.
Qed.

(** Two tasks inside guarded calls are the same task. *)
Lemma lock_invariant_exclusive {R} (s : system R) (i j : nat) :
  lock_invariant guard s ->
  inside guard s i = true -> inside guard s j = true -> i = j.
Proof.
  intros (owner & _ & _ & Ht). unfold inside.
  destruct (nth_error (tasks s) i) as [ti |] eqn:Ei; [| discriminate].
  destruct (nth_error (tasks s) j) as [tj |] eqn:Ej; [| discriminate].
  destruct ti as [| X c k]; [discriminate |].
  destruct tj as [| X' c' k']; [discriminate |]. cbn.
  intros Hi Hj.
  apply (owned_eq owner).
  - now apply (Ht i _ Ei).
  - now apply (Ht j _ Ej).
Qed.

(** A held lock has a live holder: no finished task keeps it. *)
Lemma lock_invariant_holder {R} (s : system R) :
  lock_invariant guard s ->
  locked (sworld s) = true ->
  exists i t, nth_error (tasks s) i = Some t /\ finished t = false.
Proof.
  intros (owner & Hl & Hr & Ht) L. rewrite L in Hl.
  destruct owner as [i |]; [| discriminate].
  destruct (nth_error (tasks s) i) as [t |] eqn:Ei;
    [| now contradiction (Hr i eq_refl)].
  exists i, t. split; [exact Ei |].
  specialize (Ht i t Ei). cbn in Ht. rewrite Nat.eqb_refl in Ht.
  destruct t as [[] | ]; cbn in *; try reflexivity; discriminate.
Qed.

Lemma lock_events_app (tr1 tr2 : list event) :
  lock_events (tr1 ++ tr2) = lock_events tr1 ++ lock_events tr2.
Proof.
  induction tr1 as [| ev tr1 IH]; [reflexivity |].
  destruct ev; cbn; rewrite ?IH; reflexivity.
Qed.

Lemma lock_events_of_app (i j : nat) (h : list (nat * event)) (evs : list event) :
  lock_events_of j (h ++ map (pair i) evs)
  = lock_events_of j h ++ (if Nat.eqb i j then lock_events evs else []).
Proof.
  unfold lock_events_of. rewrite filter_app, map_app, lock_events_app. f_equal.
  induction evs as [| ev evs IH]; cbn.
  - now destruct (Nat.eqb i j).
  - destruct (Nat.eqb i j); cbn in *; [| exact IH].
    rewrite IH. reflexivity.
Qed.

(** One step moves a task along the phases, never back. *)
Lemma task_exec_lock_phase {R} (o : oracle) (w w' : world) (t t' : task R)
    (evs : list event) (done : list lock_event) :
  task_exec o w t = Some (evs, w', t') ->
  lock_phase guard done t ->
  lock_phase guard (done ++ lock_events evs) t'.
Proof.
  unfold lock_phase.
  destruct t as [p | X c k]; [destruct p |]; cbn; intros H P;
    try discriminate;
    try (injection H as <- <- <-; cbn; rewrite app_nil_r;
         destruct P as [(-> & D & A) | [(-> & D & A) | (-> & D & A)]];
         [left | right; left | right; right];
         (split; [reflexivity |]); split; first [apply D | apply A | exact D | exact A]).
  - destruct (locked w); [discriminate |]. injection H as <- <- <-. cbn.
    destruct P as [(-> & D & A) | [(-> & D & A) | (-> & D & A)]].
    + right. left. split; [reflexivity |]. split; [apply D | exact A].
    + destruct D as [D _]. discriminate D.
    + destruct A.
  - injection H as <- <- <-. cbn.
    destruct P as [(-> & D & A) | [(-> & D & A) | (-> & D & A)]].
    + destruct D as [D _]. discriminate D.
    + right. right. split; [reflexivity |]. split; [apply D | exact A].
    + destruct D as [D _]. discriminate D.
Qed.

Lemma lock_phase_reachable {R} (d : discipline) (s0 s : system R) :
  (forall j t, nth_error (tasks s0) j = Some t ->
               lock_phase guard (lock_events_of j (history s0)) t) ->
  reachable d s0 s ->
  forall j t, nth_error (tasks s) j = Some t ->
              lock_phase guard (lock_events_of j (history s)) t.
Proof.
  intros H0. induction 1 as [| s s' _ IH (o & i & H)]; [exact H0 |].
  destruct (sys_exec_inv d o i s H) as (t & evs & w' & t' & _ & Ei & Et & ->).
  intros j u Hj. cbn [tasks] in Hj. cbn [history].
  rewrite lock_events_of_app.
  destruct (Nat.eq_dec i j) as [<- | Hne].
  - rewrite (nth_error_update_eq _ _ t' Ei) in Hj. injection Hj as <-.
    rewrite Nat.eqb_refl.
    eapply task_exec_lock_phase; [exact Et | now apply IH].
  - rewrite (nth_error_update_neq _ t' Hne) in Hj.
    apply Nat.eqb_neq in Hne. rewrite Hne, app_nil_r. now apply IH.
Qed.

End Exclusion.

Section Serving.

Variable cfg : config.

(** The handler takes the lock before the calls of steps 4-5 and gives
    it back on every path. *)
Lemma tts_disciplined (payload : TtsRequest) :
  disciplined (@is_gated) false (tts cfg payload).
Proof. unfold tts, tts_body, async_with_GENERATE_LOCK, tts_except. walk. Qed.

(** Its only [await] comes before step 4, which is made under the lock. *)
Lemma tts_awaits_first (payload : TtsRequest) : awaits_first (tts cfg payload).
Proof. unfold tts, tts_body, async_with_GENERATE_LOCK, tts_except. walk. Qed.

Lemma serving_task (w : world) (payloads : list TtsRequest) (j : nat)
    (t : task Response) :
  nth_error (tasks (serving cfg w payloads)) j = Some t ->
  exists payload, t = Running (tts cfg payload).
Proof.
  cbn. rewrite nth_error_map.
  destruct (nth_error payloads j) as [payload |]; cbn; [| discriminate].
  intros [= <-]. now exists payload.
Qed.

Lemma serving_lock_invariant (w : world) (payloads : list TtsRequest) :
  locked w = false -> lock_invariant_at (@is_gated) None (serving cfg w payloads).
Proof.
  intros Hfree. split; [exact Hfree |]. split; [discriminate |].
  intros j t Hj. destruct (serving_task w payloads j Hj) as [payload ->].
  apply tts_disciplined.
Qed.

Lemma serving_loop_invariant (suspends : forall X, ext X -> bool) (w : world)
    (payloads : list TtsRequest) :
  loop_invariant_at suspends None (serving cfg w payloads).
Proof.
  split.
  - intros j t Hj. destruct (serving_task w payloads j Hj) as [payload ->].
    split; [discriminate |]. intros _. apply tts_awaits_first.
  - discriminate.
Qed.

Lemma inside_generate_gated {R} (s : system R) (i : nat) :
  inside (@is_generate) s i = true -> inside (@is_gated) s i = true.
Proof.
  unfold inside. destruct (nth_error (tasks s) i) as [[p | X c k] |];
    cbn; try discriminate.
  destruct c; cbn; congruence.
Qed.

(** C3.  However many requests are served together and however they are
    scheduled, even with task switches in the middle of a library call,
    when one request is inside the engine's generation routine no other
    one is: an invocation is never entered while another is in progress. *)
Theorem engine_invocations_never_overlap (d : discipline) (w : world)
    (payloads : list TtsRequest) (s : system Response) (i j : nat) :
  locked w = false ->
  reachable d (serving cfg w payloads) s ->
  inside (@is_generate) s i = true ->
  i <> j ->
  inside (@is_generate) s j = false.
Proof.
  intros Hfree Hreach Hi Hne.
  destruct (inside (@is_generate) s j) eqn:Hj; [| reflexivity].
  exfalso. apply Hne.
  apply (lock_invariant_exclusive (guard:=@is_gated) (s:=s)).
  - eapply lock_invariant_reachable; [| exact Hreach].
    exists None. now apply serving_lock_invariant.
  - now apply inside_generate_gated.
  - now apply inside_generate_gated.
Qed.

(** While requests are served, a held gate is held by a request that is
    still running: a failed request never leaves it held. *)
Lemma gate_never_left_held (d : discipline) (w : world)
    (payloads : list TtsRequest) (s : system Response) :
  locked w = false ->
  reachable d (serving cfg w payloads) s ->
  locked (sworld s) = true ->
  exists i t, nth_error (tasks s) i = Some t /\ finished t = false.
Proof.
  intros Hfree Hreach. apply (lock_invariant_holder (guard:=@is_gated)).
  eapply lock_invariant_reachable; [| exact Hreach].
  exists None. now apply serving_lock_invariant.
Qed.

(** Its only acquisition is that one. *)
Lemma tts_acquires_once (payload : TtsRequest) : acquires_once (tts cfg payload).
Proof. unfold tts, tts_body, async_with_GENERATE_LOCK, tts_except. walk. Qed.

(** Under any scheduling every request has, at every instant, not touched
    the gate, or acquired it once and not yet released it, or acquired and
    released it once; a request that has ended is never in the middle
    case, whichever way it ended. *)
Lemma requests_release_once (d : discipline) (w : world)
    (payloads : list TtsRequest) (s : system Response) (i : nat)
    (t : task Response) :
  reachable d (serving cfg w payloads) s ->
  nth_error (tasks s) i = Some t ->
  (lock_events_of i (history s) = []
   \/ lock_events_of i (history s) = [LAcquire]
   \/ lock_events_of i (history s) = [LAcquire; LRelease])
  /\ (finished t = true ->
      lock_events_of i (history s) = []
      \/ lock_events_of i (history s) = [LAcquire; LRelease]).
Proof.
  intros Hreach Hi.
  assert (Hp : lock_phase (@is_gated) (lock_events_of i (history s)) t).
  { eapply (lock_phase_reachable (guard:=@is_gated)); [| exact Hreach | exact Hi].
    intros j u Hj. destruct (serving_task w payloads j Hj) as [payload ->].
    left. split; [reflexivity |]. split.
    - apply tts_disciplined.
    - apply tts_acquires_once. }
  split.
  - destruct Hp as [(-> & _) | [(-> & _) | (-> & _)]]; auto.
  - intros Hf. destruct Hp as [(-> & _) | [(_ & D & _) | (-> & _)]]; auto.
    destruct t as [[] | ]; cbn in *; discriminate.
Qed.

End Serving.

(** ** The event loop *)

Lemma finished_no_step {R} (o : oracle) (w : world) (t : task R) :
  finished t = true -> task_exec o w t = None.
Proof. destruct t as [[] | X c k]; cbn; congruence. Qed.

Lemma task_exec_never_awaits {R} (o : oracle) (w w' : world) (t t' : task R)
    (evs : list event) :
  task_exec o w t = Some (evs, w', t') ->
  never_awaits_task t -> never_awaits_task t'.
Proof.
  destruct t as [p | X c k]; [destruct p |]; cbn; intros H N;
    try discriminate; try (injection H as <- <- <-; cbn; now auto).
  destruct N.
Qed.

(** The step that enters the pipeline enters a call made under the lock. *)
Lemma task_exec_awaits_first {R} (o : oracle) (w w' : world) (t t' : task R)
    (evs : list event) :
  task_exec o w t = Some (evs, w', t') ->
  awaits_first_task t ->
  if existsb (is_call_event (@is_pipeline)) evs
  then never_awaits_task t' /\ in_call (@is_gated) t' = true
  else awaits_first_task t'.
Proof.
  destruct t as [p | X c k]; [destruct p |]; cbn; intros H A;
    try discriminate.
  - injection H as <- <- <-. cbn. apply A.
  - injection H as <- <- <-. cbn. apply A.
  - injection H as <- <- <-. cbn. apply A.
  - injection H as <- <- <-. cbn. exact A.
  - injection H as <- <- <-. cbn. rewrite orb_false_r.
    destruct (is_pipeline c) eqn:Ep.
    + destruct A as [Hg A]. split; [exact A | exact Hg].
    + split; [reflexivity | exact A].
  - destruct (locked w); [discriminate |]. injection H as <- <- <-. cbn. exact A.
  - injection H as <- <- <-. cbn. exact A.
  - injection H as <- <- <-. cbn. rewrite orb_false_r.
    destruct A as [-> A]. apply A.
Qed.

Lemma in_call_gated_held {R} (h : bool) (t : task R) :
  disciplined_task (@is_gated) h t -> in_call (@is_gated) t = true -> h = true.
Proof.
  destruct t as [p | X c k]; cbn; [discriminate |].
  intros [H _]. exact H.
Qed.

Section Loop.

(** The calls during which a task suspends are among those made under the
    lock: none, as the source has it, or the engine's generation call, as
    the specification's concurrency model has it. *)
Variable suspends : forall X, ext X -> bool.
Hypothesis suspends_gated : forall X (c : ext X), suspends c = true -> is_gated c = true.

Lemma in_call_suspends_gated {R} (t : task R) :
  in_call suspends t = true -> in_call (@is_gated) t = true.
Proof. destruct t as [p | X c k]; cbn; [discriminate | apply suspends_gated]. Qed.

Lemma never_awaits_yields {R} (w : world) (t : task R) :
  never_awaits_task t ->
  yields (Cooperative suspends) w t = true ->
  finished t = true \/ in_call suspends t = true.
Proof.
  unfold yields. intros N H.
  apply orb_prop in H as [H | H]; [| now right].
  apply orb_prop in H as [H | H]; [now left |].
  apply andb_prop in H as [H _].
  destruct t as [[] | X c k]; cbn in *; try discriminate. destruct N.
Qed.

Lemma serving_invariant_step {R} (s s' : system R) :
  serving_invariant suspends s ->
  sys_step (Cooperative suspends) s s' ->
  serving_invariant suspends s'.
Proof.
  intros (owner & Hlock & Hloop & Hcur) (o & i & H).
  destruct (lock_invariant_at_step (Cooperative suspends) o i Hlock H)
    as (owner' & Hlock' & Howner).
  destruct (sys_exec_inv _ o i s H) as (t & evs & w' & t' & Hrun & Ei & Et & ->).
  pose proof (proj2 (proj2 Hlock) i t Ei) as Di.
  assert (Di' : disciplined_task (@is_gated) (owned owner' i) t').
  { apply (proj2 (proj2 Hlock') i). cbn. apply (nth_error_update_eq _ _ t' Ei). }
  destruct (Hloop i t Ei) as [Hin Hout].
  pose proof (task_exec_awaits_first o (sworld s) t Et) as Hfirst.
  assert (Hother : forall j, i <> j -> current s <> Some j).
  { intros j Hne Hc. rewrite Hc in Hrun. cbn in Hrun.
    apply Nat.eqb_eq in Hrun. contradiction. }
  exists owner'. split; [exact Hlock' |]. split.
  - intros j u Hj. cbn [tasks] in Hj. cbn [history current].
    rewrite entered_app.
    destruct (Nat.eq_dec i j) as [<- | Hne].
    + rewrite (nth_error_update_eq _ _ t' Ei) in Hj. injection Hj as <-.
      rewrite Nat.eqb_refl. cbn [andb].
      assert (Hnever : entered (@is_pipeline) (history s) i
                       || existsb (is_call_event (@is_pipeline)) evs = true ->
                       never_awaits_task t').
      { destruct (entered (@is_pipeline) (history s) i); cbn.
        - intros _. apply (task_exec_never_awaits o (sworld s) t Et).
          now apply Hin.
        - intros He. rewrite He in Hfirst. now apply Hfirst, Hout. }
      split.
      * intros He. split; [now apply Hnever |].
        destruct (yields (Cooperative suspends) w' t') eqn:Hy.
        -- intros _. apply (never_awaits_yields w'); [now apply Hnever | exact Hy].
        -- intros Hc. now contradiction Hc.
      * intros He. apply orb_false_iff in He as [He1 He2].
        rewrite He2 in Hfirst. apply Hfirst, Hout, He1.
    + rewrite (nth_error_update_neq _ t' Hne) in Hj.
      pose proof Hne as Hneb. apply Nat.eqb_neq in Hneb. rewrite Hneb.
      cbn [andb]. rewrite orb_false_r.
      destruct (Hloop j u Hj) as [Hin' Hout'].
      split; [| exact Hout'].
      intros He. destruct (Hin' He) as [Hn Hf]. split; [exact Hn |].
      intros _. apply Hf. now apply Hother.
  - intros j k Hc He Ho. cbn [current history] in Hc, He.
    destruct (yields (Cooperative suspends) w' t'); [discriminate |].
    injection Hc as <-. rewrite entered_app, Nat.eqb_refl in He. cbn [andb] in He.
    destruct Howner as [-> | [-> | ->]]; [| congruence | discriminate].
    destruct (entered (@is_pipeline) (history s) i) eqn:Hent.
    + destruct (current s) as [c |] eqn:Ec.
      * cbn in Hrun. apply Nat.eqb_eq in Hrun. subst c.
        now apply (Hcur i k).
      * destruct (Hin eq_refl) as [_ Hsusp].
        destruct Hsusp as [Hfin | Hsusp]; [discriminate | |].
        -- rewrite (finished_no_step o (sworld s) t Hfin) in Et. discriminate.
        -- apply in_call_suspends_gated in Hsusp.
           pose proof (@in_call_gated_held _ _ _ Di Hsusp) as Ho'.
           apply owned_owner in Ho'. congruence.
    + cbn in He. rewrite He in Hfirst.
      destruct (Hfirst (Hout eq_refl)) as [_ Hg].
      pose proof (@in_call_gated_held _ _ _ Di' Hg) as Ho'.
      apply owned_owner in Ho'. congruence.
Qed.

Lemma serving_invariant_reachable {R} (s0 s : system R) :
  serving_invariant suspends s0 ->
  reachable (Cooperative suspends) s0 s ->
  serving_invariant suspends s.
Proof.
  intros H0. induction 1 as [| s s' _ IH Hstep]; [exact H0 |].
  now apply (serving_invariant_step IH Hstep).
Qed.

(** A task in its pipeline has the loop, or is suspended holding the lock. *)
Lemma in_pipeline_standing {R} (owner : option nat) (s : system R) (i : nat) :
  lock_invariant_at (@is_gated) owner s ->
  loop_invariant_at suspends owner s ->
  in_pipeline s i = true ->
  current s = Some i \/ owner = Some i.
Proof.
  intros (_ & _ & Hd) (Hloop & _). unfold in_pipeline.
  destruct (nth_error (tasks s) i) as [t |] eqn:Ei;
    [| rewrite andb_false_r; discriminate].
  intros H. apply andb_prop in H as [He Hf]. apply negb_true_iff in Hf.
  destruct (Hloop i t Ei) as [Hin _]. destruct (Hin He) as [_ Hst].
  assert (Hdec : current s = Some i \/ current s <> Some i).
  { destruct (current s) as [c |]; [| right; discriminate].
    destruct (Nat.eq_dec c i) as [-> | Hne]; [now left | right; congruence]. }
  destruct Hdec as [Hc | Hc]; [now left | right].
  destruct (Hst Hc) as [Hfin | Hsusp]; [congruence |].
  apply in_call_suspends_gated in Hsusp.
  apply owned_owner. apply (@in_call_gated_held _ _ _ (Hd i t Ei) Hsusp).
Qed.

Lemma serving_invariant_exclusive {R} (s : system R) (i j : nat) :
  serving_invariant suspends s ->
  in_pipeline s i = true -> in_pipeline s j = true -> i = j.
Proof.
  intros (owner & Hlock & Hloop) Hi Hj.
  pose proof (proj2 Hloop) as Hcur.
  assert (Hei : entered (@is_pipeline) (history s) i = true)
    by (unfold in_pipeline in Hi; now apply andb_prop in Hi as [? _]).
  assert (Hej : entered (@is_pipeline) (history s) j = true)
    by (unfold in_pipeline in Hj; now apply andb_prop in Hj as [? _]).
  destruct (in_pipeline_standing i Hlock Hloop Hi) as [Hci | Hoi];
    destruct (in_pipeline_standing j Hlock Hloop Hj) as [Hcj | Hoj].
  - congruence.
  - symmetry. now apply (Hcur i j).
  - now apply (Hcur j i).
  - congruence.
Qed.

End Loop.

(** C2.  On the event loop, at every instant at most one request is
    between the start of its step 4 (the first call into the processor)
    and its end: while one request is executing steps 4-8, no other one
    is.  This holds when no library call yields the loop, as in the source
    where none is awaited, and also when calls made under the gate (the
    engine's generation among them) suspend: a request waits only for the
    gate, before step 4, and after its release it runs to its end without
    yielding. *)
Theorem pipeline_steps_never_overlap (cfg : config)
    (suspends : forall X, ext X -> bool) (w : world)
    (payloads : list TtsRequest) (s : system Response) (i j : nat) :
  (forall X (c : ext X), suspends X c = true -> is_gated c = true) ->
  locked w = false ->
  reachable (Cooperative suspends) (serving cfg w payloads) s ->
  in_pipeline s i = true ->
  i <> j ->
  in_pipeline s j = false.
Proof.
  intros Hs Hfree Hreach Hi Hne.
  destruct (in_pipeline s j) eqn:Hj; [| reflexivity].
  exfalso. apply Hne.
  apply (serving_invariant_exclusive Hs (s:=s)); [| exact Hi | exact Hj].
  eapply serving_invariant_reachable; [exact Hs | | exact Hreach].
  exists None. split.
  - now apply serving_lock_invariant.
  - apply serving_loop_invariant.
Qed.

(* ================================================================== *)
(** * Instances *)

Module Instances.

Import Sample.

(** The engine raises: the gate is released and the next request goes
    through. *)
Example generate_raises_then_next :
  let r := run (generate_raises out_of_memory) (tts cfg hello) warm in
  lock_events (trace r) = [LAcquire; LRelease]
  /\ locked (final r) = false
  /\ status_of match out r with Raised e => e | _ => bad_voice end = Some 500%Z
  /\ exists data,
       out (run happy (tts cfg hello) (final r))
       = Returned {| content := data; media_type := lit "audio/wav" |}.
Proof. repeat split. eexists. reflexivity. Qed.

(** The processor raises: same. *)
Example encode_raises_then_next :
  let r := run (encode_raises out_of_memory) (tts cfg hello) warm in
  lock_events (trace r) = [LAcquire; LRelease]
  /\ locked (final r) = false
  /\ exists data,
       out (run happy (tts cfg hello) (final r))
       = Returned {| content := data; media_type := lit "audio/wav" |}.
Proof. repeat split. eexists. reflexivity. Qed.

(** A program that raised inside the lock without the scoped release
    would not pass the discipline. *)
Example unscoped_raise_not_disciplined :
  ~ disciplined (@is_gated) false (Acquire (Raise (R:=unit) out_of_memory)).
Proof. cbn. intros [_ H]. discriminate H. Qed.

(** The first start loads on the cpu and publishes engine and processor;
    [healthz] before it reports not ready, after it ready. *)
Example cold_start :
  let r := run happy (ensure_loaded ascii_lower cfg) cold in
  out (run happy (healthz cfg) cold)
  = Returned {| ok := false; model := default_model_id; device := lit "cpu" |}
  /\ out r = Returned tt
  /\ globs (final r) = loaded_globals
  /\ out (run happy (healthz cfg) (final r))
     = Returned {| ok := true; model := default_model_id; device := lit "cpu" |}.
Proof. repeat split. Qed.

(** [DEVICE] is assigned before the weights are loaded: a failed load
    leaves the resolved device published and the service not ready. *)
Example failed_load_keeps_device :
  let w := world_of initial_globals (env_device (lit "mps")) false in
  let failing : oracle :=
    fun X (c : ext X) =>
      match c in ext T return exn + T with
      | ModelFromPretrained _ _ => inl out_of_memory
      | c' => happy c'
      end in
  let r := run failing (ensure_loaded ascii_lower cfg) w in
  out r = Raised out_of_memory
  /\ globs (final r) = set_DEVICE (lit "mps") initial_globals.
Proof. repeat split. Qed.

(** The configuration of an empty environment. *)
Example default_config (py_int : str -> option Z) (py_float : str -> option float) :
  load_config py_int py_float no_env = cfg.
Proof. reflexivity. Qed.

(** Preemption would let step 7 of one request overlap step 4 of the
    next: the gate covers steps 4-5 only, and what keeps steps 7-8 apart
    is that the loop is not taken from a running task. *)
Remark preemption_overlaps_decoding :
  let s := state_after Preemptive decoding_and_encoding two_requests in
  in_pipeline s 0 = true /\ in_pipeline s 1 = true
  /\ inside (@is_gated) s 0 = false /\ inside (@is_gated) s 1 = true
  /\ run_schedule asyncio decoding_and_encoding two_requests = None
  /\ run_schedule (Cooperative (@is_generate)) decoding_and_encoding two_requests
     = None.
Proof. vm_compute. repeat split. Qed.

End Instances.

(* ================================================================== *)
(** * Counterexamples and witnesses *)

Module Witness.

Import Sample.

(** C4 as stated fails.  The processor raises [ValueError("unknown
    voice")] at step 4 on a valid request with the engine loaded; line
    164 maps it to status 400, a client fault, not to a server fault. *)
Lemma value_error_is_client_fault :
  (reaches_gate cfg (globs warm) hello = true
   /\ raised_in (trace (run (encode_raises bad_voice) (tts cfg hello) warm))
      = Some bad_voice
   /\ out (run (encode_raises bad_voice) (tts cfg hello) warm)
      = Raised (HTTPException 400 (lit "unknown voice") (Some bad_voice)))
  /\ ~ AsStated.generation_failures_are_server_faults cfg.
Proof.
  assert (H : reaches_gate cfg (globs warm) hello = true
              /\ raised_in (trace (run (encode_raises bad_voice) (tts cfg hello) warm))
                 = Some bad_voice
              /\ out (run (encode_raises bad_voice) (tts cfg hello) warm)
                 = Raised (HTTPException 400 (lit "unknown voice") (Some bad_voice)))
    by (repeat split; vm_compute; reflexivity).
  split; [exact H |].
  intros Claim. destruct H as (Hg & Hr & Ho).
  destruct (Claim (encode_raises bad_voice) warm hello bad_voice eq_refl Hg Hr)
    as [detail Hd].
  rewrite Ho in Hd. discriminate Hd.
Qed.

(** C5 as stated fails, both ways.  A blank text sent before the model
    is loaded gets status 503, not a validation error; a valid text whose
    voice the processor rejects with a [ValueError] gets status 400. *)
Lemma client_fault_not_iff_invalid_text :
  (strip (text blank) = []
   /\ out (run happy (tts cfg blank) cold)
      = Raised (HTTPException 503 (lit "Model is not loaded") None))
  /\ (strip (text hello) = lit "hello"
      /\ (len (strip (text hello)) <=? TEXT_MAX_CHARS cfg)%Z = true
      /\ out (run (encode_raises bad_voice) (tts cfg hello) warm)
         = Raised (HTTPException 400 (lit "unknown voice") (Some bad_voice)))
  /\ ~ AsStated.invalid_text_is_client_fault cfg
  /\ ~ AsStated.client_fault_only_for_invalid_text cfg.
Proof.
  split; [| split; [| split]]; try (repeat split; vm_compute; reflexivity).
  - intros Claim.
    destruct (Claim happy cold blank (or_introl eq_refl)) as (detail & cause & Hd).
    vm_compute in Hd. discriminate Hd.
  - intros Claim.
    assert (H : exists detail cause,
               out (run (encode_raises bad_voice) (tts cfg hello) warm)
               = Raised (HTTPException 400 detail cause))
      by (eexists; eexists; vm_compute; reflexivity).
    destruct (Claim (encode_raises bad_voice) warm hello H) as [He | Hlen].
    + vm_compute in He. discriminate He.
    + vm_compute in Hlen. discriminate Hlen.
Qed.

Lemma gate_released_on_every_exit_witness :
  locked warm = false
  /\ lock_events (trace (run (generate_raises out_of_memory) (tts cfg hello) warm))
     = [LAcquire; LRelease]
  /\ locked (final (run (generate_raises out_of_memory) (tts cfg hello) warm)) = false
  /\ lock_events
       (trace (run happy (tts cfg hello)
                   (final (run (generate_raises out_of_memory) (tts cfg hello) warm))))
     = [LAcquire; LRelease].
Proof.
  split; [reflexivity |].
  destruct (gate_released_on_every_exit cfg (generate_raises out_of_memory)
              warm hello eq_refl) as (_ & Hl & He & _ & Hnext).
  split; [exact He |]. split; [exact Hl |].
  exact (proj2 (Hnext happy hello)).
Defined.

Lemma pipeline_steps_never_overlap_witness :
  (in_pipeline (state_after (Cooperative (@is_generate)) awaiting_generation
                            two_requests) 0 = true
   /\ in_pipeline (state_after (Cooperative (@is_generate)) awaiting_generation
                               two_requests) 1 = false)
  /\ (in_pipeline (state_after asyncio second_encoding two_requests) 0 = true
      /\ in_pipeline (state_after asyncio second_encoding two_requests) 1 = false).
Proof.
  split; (split; [vm_compute; reflexivity |]).
  - apply (pipeline_steps_never_overlap (cfg:=cfg) (suspends:=@is_generate)
             (w:=warm) (payloads:=[hello; hello]) (i:=0)).
    + intros X c. destruct c; cbn; congruence.
    + reflexivity.
    + apply state_after_reachable.
    + vm_compute; reflexivity.
    + discriminate.
  - apply (pipeline_steps_never_overlap (cfg:=cfg) (suspends:=fun _ _ => false)
             (w:=warm) (payloads:=[hello; hello]) (i:=0)).
    + discriminate.
    + reflexivity.
    + apply state_after_reachable.
    + vm_compute; reflexivity.
    + discriminate.
Defined.

Lemma engine_invocations_never_overlap_witness :
  inside (@is_generate) (state_after Preemptive generating two_requests) 0 = true
  /\ inside (@is_generate) (state_after Preemptive generating two_requests) 1 = false.
Proof.
  split; [vm_compute; reflexivity |].
  apply (engine_invocations_never_overlap (cfg:=cfg) (d:=Preemptive) (w:=warm)
           (payloads:=[hello; hello]) (i:=0)).
  - reflexivity.
  - apply state_after_reachable.
  - vm_compute; reflexivity.
  - discriminate.
Defined.

Lemma generation_errors_by_class_witness :
  out (run (generate_raises out_of_memory) (tts cfg hello) warm)
  = Raised (HTTPException 500 (lit "TTS generation failed: CUDA out of memory")
              (Some out_of_memory))
  /\ out (run (encode_raises bad_voice) (tts cfg hello) warm)
     = Raised (HTTPException 400 (lit "unknown voice") (Some bad_voice)).
Proof.
  split.
  - apply (generation_errors_by_class cfg (generate_raises out_of_memory)
             warm hello (e:=out_of_memory)); vm_compute; reflexivity.
  - apply (generation_errors_by_class cfg (encode_raises bad_voice)
             warm hello (e:=bad_voice)); vm_compute; reflexivity.
Defined.

Lemma validation_rejections_witness :
  validation_failure (run happy (tts cfg blank) warm)
  /\ out (run happy (tts cfg blank) warm)
     = Raised (HTTPException 400 (lit "text must not be empty") None)
  /\ out (run happy (tts tiny hello) warm)
     = Raised (HTTPException 400 (lit "text exceeds max length (3)") None)
  /\ out (run happy (tts cfg blank) cold)
     = Raised (HTTPException 503 (lit "Model is not loaded") None).
Proof.
  destruct (validation_rejections cfg happy warm blank) as (Hiff & Hempty & _).
  destruct (validation_rejections tiny happy warm hello) as (_ & _ & Hlong & _).
  destruct (validation_rejections cfg happy cold blank) as (_ & _ & _ & _ & Hcold).
  split; [apply (proj2 (Hiff eq_refl)); left; reflexivity |].
  split; [apply Hempty; reflexivity |].
  split; [apply Hlong; [reflexivity | discriminate | reflexivity] |].
  apply Hcold; reflexivity.
Defined.

Lemma resolve_device_policy_witness :
  out (run happy (resolve_device ascii_lower)
           (world_of initial_globals (env_device (lit " CUDA:0 ")) false))
  = Returned (lit "cpu")
  /\ out (run happy (resolve_device ascii_lower) (world_of initial_globals no_env true))
     = Returned (lit "cuda")
  /\ out (run happy (resolve_device ascii_lower) (world_of initial_globals no_env false))
     = Returned (lit "cpu").
Proof.
  split; [| split].
  - apply (proj1 (resolve_device_policy ascii_lower happy
                    (world_of initial_globals (env_device (lit " CUDA:0 ")) false)));
      reflexivity.
  - apply (proj1 (proj2 (resolve_device_policy ascii_lower happy
                           (world_of initial_globals no_env true)))).
    reflexivity.
  - apply (proj1 (proj2 (resolve_device_policy ascii_lower happy
                           (world_of initial_globals no_env false)))).
    reflexivity.
Defined.

Lemma resolve_device_other_override_witness :
  out (run happy (resolve_device ascii_lower)
           (world_of initial_globals (env_device (lit " MPS ")) true))
  = Returned (lit "mps")
  /\ existsb is_cuda_event
       (trace (run happy (resolve_device ascii_lower)
                   (world_of initial_globals (env_device (lit " MPS ")) true)))
     = false.
Proof.
  apply (proj1 (resolve_device_other_override ascii_lower happy
                  (world_of initial_globals (env_device (lit " MPS ")) true)
                  eq_refl)).
  reflexivity.
Defined.

Lemma ensure_loaded_idempotent_witness :
  run happy (ensure_loaded ascii_lower cfg) warm
  = {| final := warm; out := Returned tt; trace := [] |}
  /\ trace (run happy (ensure_loaded ascii_lower cfg)
                (final (run happy (ensure_loaded ascii_lower cfg) cold)))
     = [].
Proof.
  split.
  - apply (proj1 (ensure_loaded_idempotent ascii_lower cfg happy warm)).
    reflexivity.
  - rewrite (proj2 (ensure_loaded_idempotent ascii_lower cfg happy cold) happy eq_refl).
    reflexivity.
Defined.

End Witness.

(* ================================================================== *)
(** * The rest of the module *)

(** ** Trimming *)

Lemma lstrip_clean (s : str) :
  match lstrip s with [] => True | c :: _ => isspace c = false end.
Proof.
  induction s as [| c s IH]; cbn; [exact I |].
  destruct (isspace c) eqn:E; [exact IH | exact E].
Qed.

Lemma lstrip_fixed (s : str) :
  match s with [] => True | c :: _ => isspace c = false end -> lstrip s = s.
Proof. destruct s as [| c s]; cbn; [reflexivity |]. now intros ->. Qed.

Lemma lstrip_keeps_last (l : str) (c : N) :
  isspace c = false -> exists l', lstrip (l ++ [c]) = l' ++ [c].
Proof.
  intros Hc. induction l as [| d l IH]; cbn.
  - rewrite Hc. now exists [].
  - destruct (isspace d); [exact IH |]. now exists (d :: l).
Qed.

Lemma rstrip_clean_head (s : str) :
  match s with [] => True | c :: _ => isspace c = false end ->
  match rstrip s with [] => True | c :: _ => isspace c = false end.
Proof.
  unfold rstrip. destruct s as [| c s]; cbn; [trivial |].
  intros Hc. destruct (lstrip_keeps_last (rev s) c Hc) as [l' ->].
  rewrite rev_app_distr. cbn. exact Hc.
Qed.

Lemma strip_idempotent (s : str) : strip (strip s) = strip s.
Proof.
  unfold strip at 1.
  rewrite (lstrip_fixed (strip s)).
  - unfold rstrip at 1. rewrite lstrip_fixed; [apply rev_involutive |].
    unfold strip, rstrip. rewrite rev_involutive. apply lstrip_clean.
  - unfold strip. apply rstrip_clean_head, lstrip_clean.
Qed.

(** ** Configuration *)

Lemma float_not_le0 (x : float) :
  float_le0 x = false -> float_gt0 x = true \/ is_nan x = true.
Proof.
  destruct x as [s | s | | s m e]; try destruct s; cbn; auto; discriminate.
Qed.

Lemma float_gt0_not_le0 (x : float) : float_gt0 x = true -> float_le0 x = false.
Proof.
  destruct x as [s | s | | s m e]; try destruct s; cbn; auto; discriminate.
Qed.

Section Configuration.

Variable py_int : str -> option Z.
Variable py_float : str -> option float.

Lemma parse_positive_int_cases (value : option str) (fallback : Z) :
  (exists v parsed,
      value = Some v /\ py_int v = Some parsed /\ (0 < parsed)%Z
      /\ parse_positive_int py_int value fallback = parsed)
  \/ parse_positive_int py_int value fallback = fallback.
Proof.
  unfold parse_positive_int.
  destruct value as [v |]; [| now right].
  destruct (py_int v) as [parsed |] eqn:E; [| now right].
  destruct (Z.leb_spec parsed 0); [now right | left].
  exists v, parsed. auto.
Qed.

(** X1.  [parse_positive_int] never returns zero or a negative number
    when its fallback is positive: a missing value, an unparsable one and
    one that parses to [n <= 0] all give the fallback, and only a value
    that parses to a positive number gives that number. *)
Theorem parse_positive_int_positive (value : option str) (fallback : Z) :
  (0 < fallback)%Z ->
  (0 < parse_positive_int py_int value fallback)%Z
  /\ (parse_positive_int py_int value fallback <> fallback ->
      exists v, value = Some v
                /\ py_int v = Some (parse_positive_int py_int value fallback)).
Proof.
  intros Hf.
  destruct (parse_positive_int_cases value fallback)
    as [(v & parsed & -> & Hp & Hpos & ->) | ->].
  - split; [exact Hpos |]. intros _. now exists v.
  - split; [exact Hf |]. intros H. now contradiction H.
Qed.

Lemma parse_positive_float_cases (value : option str) (fallback : float) :
  (exists v parsed,
      value = Some v /\ py_float v = Some parsed /\ float_le0 parsed = false
      /\ parse_positive_float py_float value fallback = parsed)
  \/ parse_positive_float py_float value fallback = fallback.
Proof.
  unfold parse_positive_float.
  destruct value as [v |]; [| now right].
  destruct (py_float v) as [parsed |] eqn:E; [| now right].
  destruct (float_le0 parsed) eqn:L; [now right | left].
  exists v, parsed. auto.
Qed.

(** X2.  With a positive fallback, [parse_positive_float] returns a
    number [> 0] or a NaN, never zero or a negative number; and a value
    that parses to NaN is returned as it is (the test [parsed <= 0] is
    false for it), not replaced by the fallback. *)
Theorem parse_positive_float_positive_or_nan (value : option str) (fallback : float) :
  float_gt0 fallback = true ->
  (float_gt0 (parse_positive_float py_float value fallback) = true
   \/ is_nan (parse_positive_float py_float value fallback) = true)
  /\ (forall v, value = Some v -> py_float v = Some S754_nan ->
                parse_positive_float py_float value fallback = S754_nan).
Proof.
  intros Hf. split.
  - destruct (parse_positive_float_cases value fallback)
      as [(v & parsed & -> & Hp & Hle & ->) | ->].
    + now apply float_not_le0.
    + now left.
  - intros v -> Hv. unfold parse_positive_float. now rewrite Hv.
Qed.

Variable env : string -> option str.

Lemma load_config_max_tokens : (0 < DEFAULT_MAX_TOKENS (load_config py_int py_float env))%Z.
Proof.
  cbn.
  destruct (parse_positive_int_cases (env "KUGELAUDIO_DEFAULT_MAX_TOKENS"%string) 2048)
    as [(v & parsed & _ & _ & Hpos & ->) | ->]; [exact Hpos | reflexivity].
Qed.

Lemma load_config_cfg_scale :
  float_le0 (DEFAULT_CFG_SCALE (load_config py_int py_float env)) = false.
Proof.
  cbn.
  destruct (parse_positive_float_cases
              (env "KUGELAUDIO_DEFAULT_CFG_SCALE"%string) float_3)
    as [(v & parsed & _ & _ & Hle & ->) | ->]; [exact Hle | reflexivity].
Qed.

Lemma load_config_voice (v : str) :
  DEFAULT_VOICE (load_config py_int py_float env) = Some v ->
  v <> [] /\ trimmed v.
Proof.
  cbn. unfold or_None.
  destruct (strip (or_empty (env "KUGELAUDIO_DEFAULT_VOICE"%string))) as [| c r] eqn:E;
    cbn; [discriminate |].
  intros [= <-]. split; [discriminate |].
  unfold trimmed. rewrite <- E. apply strip_idempotent.
Qed.

(** X3.  Whatever the environment holds, the numeric constants the module
    computes at import are usable: the character ceiling and the default
    token budget are at least 1, and the default cfg scale is never zero or
    negative (it is a number [> 0], or NaN when the variable spells one). *)
Theorem load_config_numbers :
  (1 <= TEXT_MAX_CHARS (load_config py_int py_float env))%Z
  /\ (1 <= DEFAULT_MAX_TOKENS (load_config py_int py_float env))%Z
  /\ (float_gt0 (DEFAULT_CFG_SCALE (load_config py_int py_float env)) = true
      \/ is_nan (DEFAULT_CFG_SCALE (load_config py_int py_float env)) = true).
Proof.
  split; [| split].
  - cbn.
    destruct (parse_positive_int_cases (env "KUGELAUDIO_TEXT_MAX_CHARS"%string) 4000)
      as [(v & parsed & _ & _ & Hpos & ->) | ->]; lia.
  - pose proof load_config_max_tokens. lia.
  - apply float_not_le0, load_config_cfg_scale.
Qed.

(** X4.  The model identifier is never empty and carries no surrounding
    white space: an unset, empty or blank variable gives the built-in
    identifier.  The default voice is either unset or a non-empty string
    without surrounding white space; a blank variable gives no voice. *)
Theorem load_config_strings :
  MODEL_ID (load_config py_int py_float env) <> []
  /\ trimmed (MODEL_ID (load_config py_int py_float env))
  /\ (forall v, env "KUGELAUDIO_MODEL_ID"%string = Some v -> strip v = [] ->
                MODEL_ID (load_config py_int py_float env) = default_model_id)
  /\ (env "KUGELAUDIO_MODEL_ID"%string = None ->
      MODEL_ID (load_config py_int py_float env) = default_model_id)
  /\ (forall v, DEFAULT_VOICE (load_config py_int py_float env) = Some v ->
                v <> [] /\ trimmed v)
  /\ (strip (or_empty (env "KUGELAUDIO_DEFAULT_VOICE"%string)) = [] ->
      DEFAULT_VOICE (load_config py_int py_float env) = None).
Proof.
  assert (Hid : forall s,
             or_str (strip s) default_model_id <> []
             /\ trimmed (or_str (strip s) default_model_id)).
  { intros s. unfold or_str.
    destruct (strip s) as [| c r] eqn:E; cbn.
    - split; [discriminate | reflexivity].
    - split; [discriminate |]. unfold trimmed. rewrite <- E.
      apply strip_idempotent. }
  split; [apply Hid |]. split; [apply Hid |].
  split; [| split; [| split]].
  - intros v Hv Hs. cbn. rewrite Hv, Hs. reflexivity.
  - intros Hv. cbn. rewrite Hv. reflexivity.
  - apply load_config_voice.
  - intros Hs. cbn. rewrite Hs. reflexivity.
Qed.

Variable payload : TtsRequest.

(** X5.  With the constants the module computes, whatever the environment
    and the request hold, the engine is never given a token budget below 1
    nor a cfg scale that is zero or negative, and the processor is never
    given an empty voice: the voice is unset or a non-empty trimmed
    string. *)
Theorem resolved_parameters_usable :
  (1 <= tts_max_tokens (load_config py_int py_float env) payload)%Z
  /\ float_le0 (tts_cfg_scale (load_config py_int py_float env) payload) = false
  /\ (forall v, tts_voice (load_config py_int py_float env) payload = Some v ->
                v <> [] /\ trimmed v).
Proof.
  split; [| split].
  - unfold tts_max_tokens.
    pose proof load_config_max_tokens as Hd.
    destruct (maxTokens payload) as [n |]; [| lia].
    destruct (int_truthy n && (n >? 0)%Z) eqn:E; [| lia].
    apply andb_prop in E as [_ E]. apply Z.gtb_lt in E. lia.
  - unfold tts_cfg_scale.
    destruct (cfgScale payload) as [x |]; [| apply load_config_cfg_scale].
    destruct (float_truthy x && float_gt0 x) eqn:E; [| apply load_config_cfg_scale].
    apply andb_prop in E as [_ E]. now apply float_gt0_not_le0.
  - intros v. unfold tts_voice.
    destruct (strip (or_empty (voice payload))) as [| c r] eqn:E; cbn.
    + apply load_config_voice.
    + intros [= <-]. split; [discriminate |].
      unfold trimmed. rewrite <- E. apply strip_idempotent.
Qed.

End Configuration.

(** ** Device and lifecycle *)

Section MoreLifecycle.

Variable lower : str -> str.
Variable cfg : config.

(** X6.  [resolve_device] always returns, with a non-empty device that is
    "cpu", "cuda" or the configured override; and it never selects an
    accelerated device that the hardware does not have: a result that
    starts with "cuda" implies that cuda is available. *)
Theorem resolve_device_available (o : oracle) (w : world) :
  exists d,
    out (run o (resolve_device lower) w) = Returned d
    /\ d <> []
    /\ (d = lit "cpu" \/ d = lit "cuda" \/ d = configured_device lower w)
    /\ (startswith d (lit "cuda") = true -> cuda_available w = true).
Proof.
  rewrite resolve_device_run. cbv zeta.
  destruct (is_empty (configured_device lower w)) eqn:Ee.
  - destruct (cuda_available w); eexists; (split; [reflexivity |]);
      (split; [discriminate |]); (split; [auto |]); cbn; auto.
  - assert (Hne : configured_device lower w <> [])
      by (intros H; rewrite H in Ee; discriminate).
    destruct (startswith (configured_device lower w) (lit "cuda")) eqn:Es.
    + destruct (cuda_available w); eexists; (split; [reflexivity |]).
      * auto.
      * split; [discriminate |]. split; [auto | discriminate].
    + eexists. split; [reflexivity |]. split; [exact Hne |].
      split; [auto |]. rewrite Es. discriminate.
Qed.

Ltac lifecycle_cases o :=
  repeat match goal with
         | |- context [match o ?X ?c with _ => _ end] =>
             let E := fresh "E" in destruct (o X c) as [? | ?] eqn:E; cbn
         end.

(** The load path, device by device. *)
Lemma ensure_loaded_from (o : oracle) (w : world) :
  loaded (globs w) = false ->
  exists d,
    out (run o (resolve_device lower) w) = Returned d
    /\ DEVICE (globs (final (run o (ensure_loaded lower cfg) w))) = d
    /\ loaded_dtype (trace (run o (ensure_loaded lower cfg) w))
       = Some (if startswith d (lit "cuda") then bfloat16 else float32)
    /\ locked (final (run o (ensure_loaded lower cfg) w)) = locked w
    /\ match out (run o (ensure_loaded lower cfg) w) with
       | Returned _ =>
           exists m0 m p,
             o _ (ModelFromPretrained (MODEL_ID cfg)
                    (if startswith d (lit "cuda") then bfloat16 else float32))
             = inr m0
             /\ o _ (ModelTo m0 d) = inr m
             /\ o _ (ModelEval m) = inr tt
             /\ o _ (StripEncoders m) = inr tt
             /\ o _ (ProcessorFromPretrained (MODEL_ID cfg)) = inr p
             /\ globs (final (run o (ensure_loaded lower cfg) w))
                = {| MODEL := Some m; PROCESSOR := Some p; DEVICE := d |}
       | Raised e =>
           raised_in (trace (run o (ensure_loaded lower cfg) w)) = Some e
           /\ MODEL (globs (final (run o (ensure_loaded lower cfg) w)))
              = MODEL (globs w)
           /\ PROCESSOR (globs (final (run o (ensure_loaded lower cfg) w)))
              = PROCESSOR (globs w)
       | Blocked => False
       end.
Proof.
  intros Hl. rewrite resolve_device_run. cbv zeta.
  unfold ensure_loaded, resolve_device, configured_device. cbn.
  unfold loaded in Hl. rewrite Hl. cbn.
  repeat match goal with
         | |- context [is_empty (lower ?x)] =>
             destruct (is_empty (lower x)) eqn:?; cbn
         | |- context [startswith (lower ?x) ?y] =>
             destruct (startswith (lower x) y) eqn:?; cbn
         | |- context [cuda_available w] =>
             destruct (cuda_available w) eqn:?; cbn
         end.
  all: eexists; (split; [reflexivity |]); cbn.
  all: repeat match goal with
              | H : startswith ?a ?b = _ |- context [startswith ?a ?b] =>
                  rewrite H; cbn
              end.
  all: lifecycle_cases o.
  all: repeat match goal with u : unit |- _ => destruct u end.
  all: (split; [reflexivity |]); (split; [reflexivity |]); (split; [reflexivity |]).
  all: first [ solve [repeat split; reflexivity]
             | do 3 eexists; repeat split; first [reflexivity | eassumption] ].
Qed.

(** X7.  When [ensure_loaded] loads, it asks for the weights in bfloat16
    exactly when the device it resolved starts with "cuda", in float32
    otherwise; so reduced precision is only ever requested on a machine
    that has the accelerator. *)
Theorem load_precision_follows_device (o : oracle) (w : world) :
  loaded (globs w) = false ->
  loaded_dtype (trace (run o (ensure_loaded lower cfg) w))
  = Some (if startswith (DEVICE (globs (final (run o (ensure_loaded lower cfg) w))))
                        (lit "cuda")
          then bfloat16 else float32)
  /\ (loaded_dtype (trace (run o (ensure_loaded lower cfg) w)) = Some bfloat16 ->
      cuda_available w = true).
Proof.
  intros Hl.
  destruct (ensure_loaded_from o w Hl) as (d & Hd & -> & Ht & _).
  split; [exact Ht |].
  rewrite Ht. intros Hb.
  destruct (resolve_device_available o w) as (d' & Hd' & _ & _ & Hav).
  rewrite Hd in Hd'. injection Hd' as <-.
  apply Hav. destruct (startswith d (lit "cuda")); [reflexivity | discriminate].
Qed.

(** X8.  The engine and the processor are published together: after any
    run of [ensure_loaded], whatever the libraries did, either both globals
    are what they were, or the call returned and both are set.  A state
    with both or neither stays so, and the gate is not touched. *)
Theorem engine_and_processor_published_together (o : oracle) (w : world) :
  ((MODEL (globs (final (run o (ensure_loaded lower cfg) w))) = MODEL (globs w)
    /\ PROCESSOR (globs (final (run o (ensure_loaded lower cfg) w)))
       = PROCESSOR (globs w))
   \/ (out (run o (ensure_loaded lower cfg) w) = Returned tt
       /\ loaded (globs (final (run o (ensure_loaded lower cfg) w))) = true))
  /\ (paired (globs w) = true ->
      paired (globs (final (run o (ensure_loaded lower cfg) w))) = true)
  /\ locked (final (run o (ensure_loaded lower cfg) w)) = locked w.
Proof.
  destruct (loaded (globs w)) eqn:Hl.
  - rewrite (ensure_loaded_noop lower cfg o w Hl). cbn. auto.
  - destruct (ensure_loaded_from o w Hl) as (d & _ & _ & _ & Hk & Ho).
    destruct (out (run o (ensure_loaded lower cfg) w)) as [[] | e |];
      [| | contradiction].
    + destruct Ho as (m0 & m & p & _ & _ & _ & _ & _ & Hg).
      rewrite Hg. cbn. split; [right; auto | auto].
    + destruct Ho as (_ & Hm & Hp). unfold paired. rewrite Hm, Hp. auto.
Qed.

(** X9.  A load that fails lets the library's exception through as it
    is, leaves the service not loaded but with the resolved device already
    published (line 80 runs before the weights are read), which [healthz]
    then reports with [ok] false; and the failure is not remembered: the
    next call tries to load again. *)
Theorem failed_load_is_retried (o : oracle) (w : world) (e : exn) :
  loaded (globs w) = false ->
  out (run o (ensure_loaded lower cfg) w) = Raised e ->
  raised_in (trace (run o (ensure_loaded lower cfg) w)) = Some e
  /\ out (run o (resolve_device lower) w)
     = Returned (DEVICE (globs (final (run o (ensure_loaded lower cfg) w))))
  /\ (forall o',
        out (run o' (healthz cfg) (final (run o (ensure_loaded lower cfg) w)))
        = Returned {| ok := false;
                      model := MODEL_ID cfg;
                      device := DEVICE (globs (final (run o (ensure_loaded lower cfg) w))) |})
  /\ (forall o',
        loaded_dtype
          (trace (run o' (ensure_loaded lower cfg)
                      (final (run o (ensure_loaded lower cfg) w))))
        <> None).
Proof.
  intros Hl He.
  destruct (ensure_loaded_from o w Hl) as (d & Hd & Hdev & _ & _ & Ho).
  rewrite He in Ho. destruct Ho as (Hr & Hm & Hp).
  assert (Hl' : loaded (globs (final (run o (ensure_loaded lower cfg) w))) = false)
    by (unfold loaded in *; now rewrite Hm, Hp).
  split; [exact Hr |]. split; [now rewrite Hdev |]. split.
  - intros o'.
    remember (final (run o (ensure_loaded lower cfg) w)) as w1 eqn:Hw1.
    cbn. unfold loaded in Hl'. now rewrite Hl'.
  - intros o'.
    destruct (ensure_loaded_from o' _ Hl') as (d' & _ & _ & Ht & _).
    rewrite Ht. discriminate.
Qed.

(** X10.  A load that returns from a state that was not loaded has
    called the five library operations with success, in the precision of
    the resolved device, and publishes the model that [.to(DEVICE)]
    returned, the processor that [from_pretrained] returned and the
    resolved device. *)
Theorem successful_load_publishes (o : oracle) (w : world) :
  loaded (globs w) = false ->
  out (run o (ensure_loaded lower cfg) w) = Returned tt ->
  exists d m0 m p,
    out (run o (resolve_device lower) w) = Returned d
    /\ o _ (ModelFromPretrained (MODEL_ID cfg)
              (if startswith d (lit "cuda") then bfloat16 else float32))
       = inr m0
    /\ o _ (ModelTo m0 d) = inr m
    /\ o _ (ModelEval m) = inr tt
    /\ o _ (StripEncoders m) = inr tt
    /\ o _ (ProcessorFromPretrained (MODEL_ID cfg)) = inr p
    /\ globs (final (run o (ensure_loaded lower cfg) w))
       = {| MODEL := Some m; PROCESSOR := Some p; DEVICE := d |}.
Proof.
  intros Hl He.
  destruct (ensure_loaded_from o w Hl) as (d & Hd & _ & _ & _ & Ho).
  rewrite He in Ho. destruct Ho as (m0 & m & p & Ho).
  exists d, m0, m, p. split; [exact Hd | exact Ho].
Qed.

(** A status 503 from a loaded service is one a library raised. *)
Lemma tts_loaded_503 (o : oracle) (w : world) (payload : TtsRequest)
    (detail : str) (cause : option exn) :
  loaded (globs w) = true ->
  out (run o (tts cfg payload) w) = Raised (HTTPException 503 detail cause) ->
  raised_in (trace (run o (tts cfg payload) w))
  = Some (HTTPException 503 detail cause).
Proof.
  intros Hl.
  destruct (is_empty (strip (text payload))) eqn:Ee.
  { rewrite (tts_empty_text cfg o w payload Hl Ee). cbn. discriminate. }
  destruct (len (strip (text payload)) >? TEXT_MAX_CHARS cfg)%Z eqn:El.
  { rewrite (tts_text_too_long cfg o w payload Hl Ee El). cbn. discriminate. }
  assert (Hg : reaches_gate cfg (globs w) payload = true).
  { unfold reaches_gate. rewrite Hl, Ee. cbn.
    rewrite Z.gtb_ltb in El. apply Z.ltb_ge in El. now apply Z.leb_le. }
  destruct (locked w) eqn:Hk.
  - rewrite (tts_admitted cfg o w payload Hg).
    unfold tts_body, async_with_GENERATE_LOCK. cbn. rewrite Hk. discriminate.
  - pose proof (tts_raised_run cfg o w payload Hk Hg) as H.
    destruct (raised_in (trace (run o (tts cfg payload) w))) as [e |].
    + rewrite H. destruct e; intros [= <- <- <-]; reflexivity.
    + destruct H as [data ->]. discriminate.
Qed.

(** X11.  Once the application's startup ([lifespan]) has returned, the
    service is ready and stays so: [healthz] reports [ok] true, and no
    request is ever refused as not loaded; a status 503 can then only be
    one raised by a library during the pipeline. *)
Theorem ready_after_startup (o : oracle) (w : world) :
  out (run o (lifespan lower cfg) w) = Returned tt ->
  (forall o',
      out (run o' (healthz cfg) (final (run o (lifespan lower cfg) w)))
      = Returned {| ok := true;
                    model := MODEL_ID cfg;
                    device := DEVICE (globs (final (run o (lifespan lower cfg) w))) |})
  /\ (forall o' payload detail cause,
        out (run o' (tts cfg payload) (final (run o (lifespan lower cfg) w)))
        = Raised (HTTPException 503 detail cause) ->
        raised_in
          (trace (run o' (tts cfg payload) (final (run o (lifespan lower cfg) w))))
        = Some (HTTPException 503 detail cause)).
Proof.
  unfold lifespan. intros He.
  pose proof (ensure_loaded_loads lower cfg o w He) as Hl.
  split.
  - intros o'.
    remember (final (run o (ensure_loaded lower cfg) w)) as w1 eqn:Hw1.
    cbn. unfold loaded in Hl. now rewrite Hl.
  - intros o' payload detail cause. now apply tts_loaded_503.
Qed.

End MoreLifecycle.

(** ** The request handler, further *)

Ltac oracle_cases_eqn o :=
  repeat match goal with
         | |- context [match o ?X ?c with _ => _ end] =>
             let E := fresh "E" in destruct (o X c) as [[] | ] eqn:E; cbn
         | |- context [if isinstance_Tensor ?g then _ else _] =>
             let E := fresh "T" in destruct (isinstance_Tensor g) eqn:E; cbn
         end.

Section MoreRequest.

Variable cfg : config.

(** [tts] before the pipeline, in all four ways it can go. *)
Lemma tts_entry (o : oracle) (w : world) (payload : TtsRequest) :
  (trace (run o (tts cfg payload) w) = []
   /\ final (run o (tts cfg payload) w) = w
   /\ forall resp, out (run o (tts cfg payload) w) <> Returned resp)
  \/ (locked w = false /\ reaches_gate cfg (globs w) payload = true).
Proof.
  destruct (loaded (globs w)) eqn:Hl.
  2:{ left. rewrite (tts_not_loaded cfg o w payload Hl). cbn.
      repeat split. discriminate. }
  destruct (is_empty (strip (text payload))) eqn:Ee.
  { left. rewrite (tts_empty_text cfg o w payload Hl Ee). cbn.
    repeat split. discriminate. }
  destruct (len (strip (text payload)) >? TEXT_MAX_CHARS cfg)%Z eqn:El.
  { left. rewrite (tts_text_too_long cfg o w payload Hl Ee El). cbn.
    repeat split. discriminate. }
  assert (Hg : reaches_gate cfg (globs w) payload = true).
  { unfold reaches_gate. rewrite Hl, Ee. cbn.
    rewrite Z.gtb_ltb in El. apply Z.ltb_ge in El. now apply Z.leb_le. }
  destruct (locked w) eqn:Hk; [left | now right].
  rewrite (tts_admitted cfg o w payload Hg).
  unfold tts_body, async_with_GENERATE_LOCK. cbn. rewrite Hk. cbn.
  repeat split. discriminate.
Qed.

(** X12.  A request changes nothing of the process-wide state, in any
    state and whatever the libraries do (it only ever invokes the engine
    and the processor), and all it does besides is take and release the
    gate and call the libraries of steps 4-8: it never loads a model, never
    reads the environment and never queries the hardware. *)
Theorem tts_only_runs_the_pipeline (o : oracle) (w : world) (payload : TtsRequest) :
  globs (final (run o (tts cfg payload) w)) = globs w
  /\ forallb is_tts_event (trace (run o (tts cfg payload) w)) = true.
Proof.
  destruct (tts_entry o w payload) as [(-> & -> & _) | (Hk & Hg)];
    [split; reflexivity |].
  rewrite (tts_admitted cfg o w payload Hg).
  unfold tts_body, async_with_GENERATE_LOCK. cbn. rewrite Hk. cbn.
  oracle_cases o; split; reflexivity.
Qed.

(** X13.  A request that returns carries exactly the bytes [sf.write]
    produced, tagged audio/wav, and they were encoded at the processor's
    sampling rate, or at 24000 when the processor has none. *)
Theorem tts_returns_what_was_written (o : oracle) (w : world)
    (payload : TtsRequest) (resp : Response) :
  out (run o (tts cfg payload) w) = Returned resp ->
  media_type resp = lit "audio/wav"
  /\ exists audio,
       written (trace (run o (tts cfg payload) w))
       = Some (audio,
               match o _ (SamplingRate (PROCESSOR (globs w))) with
               | inr (Some rate) => rate
               | _ => 24000%Z
               end,
               content resp).
Proof.
  destruct (tts_entry o w payload) as [(_ & _ & Hno) | (Hk & Hg)].
  { intros H. now contradiction (Hno resp). }
  rewrite (tts_admitted cfg o w payload Hg).
  unfold tts_body, async_with_GENERATE_LOCK. cbn. rewrite Hk. cbn.
  oracle_cases o; intros H; try discriminate H; try congruence;
    repeat match goal with
           | E : inr _ = inr _ |- _ => injection E as E; subst
           end;
    injection H as <-; cbn; (split; [reflexivity |]); eexists; reflexivity.
Qed.

(** X14.  The engine's output is normalised by its kind: when
    [speech_outputs[0]] is a tensor it goes through the tensor conversion
    of line 154 and never through [np.asarray] of line 156, and the other
    way round when it is not. *)
Theorem output_normalised_by_kind (o : oracle) (w : world) (payload : TtsRequest)
    (generated : obj) :
  generated_of (trace (run o (tts cfg payload) w)) = Some generated ->
  existsb (is_call_event (@is_tensor_to_numpy)) (trace (run o (tts cfg payload) w))
  = isinstance_Tensor generated
  /\ existsb (is_call_event (@is_np_asarray)) (trace (run o (tts cfg payload) w))
     = negb (isinstance_Tensor generated).
Proof.
  destruct (tts_entry o w payload) as [(-> & _ & _) | (Hk & Hg)];
    [discriminate |].
  rewrite (tts_admitted cfg o w payload Hg).
  unfold tts_body, async_with_GENERATE_LOCK. cbn. rewrite Hk. cbn.
  oracle_cases_eqn o; intros H; try discriminate H; injection H as <-;
    match goal with T : isinstance_Tensor _ = _ |- _ => rewrite T end;
    split; reflexivity.
Qed.

End MoreRequest.

(** ** Progress and termination *)

Lemma forallb_false_nth {A} (f : A -> bool) (l : list A) :
  forallb f l = false -> exists i x, nth_error l i = Some x /\ f x = false.
Proof.
  induction l as [| a l IH]; cbn; [discriminate |].
  destruct (f a) eqn:E; cbn.
  - intros H. destruct (IH H) as (i & x & Hi & Hx). now exists (S i), x.
  - intros _. now exists 0, a.
Qed.

Lemma task_exec_enabled {R} (o : oracle) (w : world) (t : task R) :
  finished t = false -> awaits_lock t && locked w = false ->
  exists r, task_exec o w t = Some r.
Proof.
  destruct t as [[] | X c k]; cbn; intros Hf Ha; try discriminate; eauto.
  rewrite Ha. eauto.
Qed.

Lemma sys_exec_enabled {R} (d : discipline) (o : oracle) (s : system R)
    (i : nat) (t : task R) :
  may_run d (current s) i = true ->
  nth_error (tasks s) i = Some t ->
  finished t = false -> awaits_lock t && locked (sworld s) = false ->
  can_step d s.
Proof.
  intros Hrun Hi Hf Ha.
  destruct (task_exec_enabled o (sworld s) t Hf Ha) as [[[evs w'] t'] Ht].
  exists i, o. unfold sys_exec. rewrite Hrun, Hi, Ht. eauto.
Qed.

Lemma token_ok_reachable {R} (d : discipline) (s0 s : system R) :
  current s0 = None -> reachable d s0 s -> token_ok d s.
Proof.
  intros H0. induction 1 as [| s s' _ IH (o & i & H)].
  - intros i Hi. congruence.
  - destruct (sys_exec_inv d o i s H) as (t & evs & w' & t' & _ & Ei & _ & ->).
    intros j Hj. cbn in Hj |- *.
    destruct (yields d w' t') eqn:Hy; [discriminate |].
    injection Hj as <-. exists t'. split; [| exact Hy].
    apply (nth_error_update_eq _ _ t' Ei).
Qed.

(** Whoever holds the lock can go on. *)
Lemma lock_holder_enabled {R} (guard : forall X, ext X -> bool) (s : system R) :
  lock_invariant guard s ->
  locked (sworld s) = true ->
  exists i t, nth_error (tasks s) i = Some t
              /\ finished t = false /\ awaits_lock t = false.
Proof.
  intros (owner & Hl & Hr & Ht) L. rewrite L in Hl.
  destruct owner as [i |]; [| discriminate].
  destruct (nth_error (tasks s) i) as [t |] eqn:Ei;
    [| now contradiction (Hr i eq_refl)].
  exists i, t. split; [exact Ei |].
  specialize (Ht i t Ei). cbn in Ht. rewrite Nat.eqb_refl in Ht.
  destruct t as [[] | ]; cbn in *; repeat split; try reflexivity;
    try discriminate; destruct Ht; discriminate.
Qed.

Lemma task_exec_bounded {R} (o : oracle) (w w' : world) (t t' : task R)
    (evs : list event) (n : nat) :
  task_exec o w t = Some (evs, w', t') ->
  bounded_task t n ->
  exists m, n = S m /\ bounded_task t' m.
Proof.
  destruct t as [p | X c k]; [destruct p |]; cbn; intros H B;
    try discriminate.
  - destruct n as [| m]; [contradiction |]. injection H as <- <- <-.
    exists m. split; [reflexivity | apply B].
  - destruct n as [| m]; [contradiction |]. injection H as <- <- <-.
    exists m. split; [reflexivity | apply B].
  - destruct n as [| m]; [contradiction |]. injection H as <- <- <-.
    exists m. split; [reflexivity | apply B].
  - destruct n as [| m]; [contradiction |]. injection H as <- <- <-.
    exists m. split; [reflexivity | exact B].
  - destruct n as [| [| m]]; try contradiction. injection H as <- <- <-.
    exists (S m). split; [reflexivity | exact B].
  - destruct (locked w); [discriminate |].
    destruct n as [| m]; [contradiction |]. injection H as <- <- <-.
    exists m. split; [reflexivity | exact B].
  - destruct n as [| m]; [contradiction |]. injection H as <- <- <-.
    exists m. split; [reflexivity | exact B].
  - destruct n as [| m]; [contradiction |]. injection H as <- <- <-.
    exists m. split; [reflexivity | apply B].
Qed.

Lemma bounded_pool_step {R} (o : oracle) (w w' : world) (ts : list (task R))
    (i : nat) (t t' : task R) (evs : list event) (n : nat) :
  bounded_pool ts n ->
  nth_error ts i = Some t ->
  task_exec o w t = Some (evs, w', t') ->
  exists m, n = S m /\ bounded_pool (update i t' ts) m.
Proof.
  revert i n. induction ts as [| a ts IH]; intros [| i] n; cbn;
    try discriminate.
  - intros (b & m & -> & Hb & Hp) [= ->] Ht.
    destruct (@task_exec_bounded _ _ _ _ _ _ _ _ Ht Hb) as (b' & -> & Hb').
    exists (b' + m). split; [reflexivity |]. now exists b', m.
  - intros (b & m & -> & Hb & Hp) Hi Ht.
    destruct (IH i m Hp Hi Ht) as (m' & -> & Hp').
    exists (b + m'). split; [lia |]. now exists b, m'.
Qed.

Lemma run_schedule_bounded {R} (d : discipline) (sched : list (nat * oracle))
    (s s' : system R) (n : nat) :
  bounded_pool (tasks s) n ->
  run_schedule d sched s = Some s' ->
  List.length sched <= n.
Proof.
  revert s n. induction sched as [| [i o] sched IH]; cbn; intros s n Hb H;
    [lia |].
  destruct (sys_exec d o i s) as [s1 |] eqn:E; [| discriminate].
  destruct (sys_exec_inv d o i s E) as (t & evs & w' & t' & _ & Ei & Et & ->).
  destruct (@bounded_pool_step _ _ _ _ _ _ _ _ _ _ Hb Ei Et) as (m & -> & Hm).
  pose proof (IH _ m (Hm : bounded_pool (tasks {| sworld := w'; tasks := update i t' (tasks s); current := if yields d w' t' then None else Some i; history := history s ++ map (pair i) evs |}) m) H). lia.
Qed.

Section MoreServing.

Variable cfg : config.

(** Every path through the handler has at most 23 steps. *)
Lemma tts_bounded (payload : TtsRequest) : bounded (tts cfg payload) 23.
Proof. unfold tts, tts_body, async_with_GENERATE_LOCK, tts_except. walk. Qed.

Lemma serving_bounded (w : world) (payloads : list TtsRequest) :
  bounded_pool (tasks (serving cfg w payloads)) (23 * List.length payloads).
Proof.
  cbn [serving tasks]. induction payloads as [| payload payloads IH].
  - exact I.
  - cbn [map bounded_pool List.length].
    exists 23, (23 * List.length payloads). split; [lia |].
    split; [apply tts_bounded | exact IH].
Qed.

(** X15.  Requests served together never deadlock, under either kind of
    scheduling and whatever the libraries answer: as long as some request
    has not ended, some request can take its next step; a request that
    waits for the gate waits for one that can go on. *)
Theorem serving_never_deadlocks (d : discipline) (w : world)
    (payloads : list TtsRequest) (s : system Response) :
  locked w = false ->
  reachable d (serving cfg w payloads) s ->
  forallb finished (tasks s) = true \/ can_step d s.
Proof.
  intros Hfree Hreach.
  destruct (forallb finished (tasks s)) eqn:F; [now left | right].
  pose (o := fun X (c : ext X) => @inl exn X (OtherException [])).
  assert (Htok : token_ok d s)
    by (apply (token_ok_reachable (s0:=serving cfg w payloads)); auto).
  assert (Hlock : lock_invariant (@is_gated) s).
  { eapply lock_invariant_reachable; [| exact Hreach].
    exists None. now apply serving_lock_invariant. }
  destruct (current s) as [i |] eqn:Ec.
  - destruct (Htok i Ec) as (t & Hi & Hy).
    unfold yields in Hy.
    apply orb_false_iff in Hy as [Hy _]. apply orb_false_iff in Hy as [Hf Ha].
    apply (@sys_exec_enabled _ d o s i t); [| exact Hi | exact Hf | exact Ha].
    rewrite Ec. destruct d; cbn; [apply Nat.eqb_refl | reflexivity].
  - assert (Hrun : forall k, may_run d (current s) k = true)
      by (intros k; rewrite Ec; now destruct d).
    destruct (forallb_false_nth _ _ F) as (j & t & Hj & Hf).
    destruct (awaits_lock t && locked (sworld s)) eqn:Ha.
    + apply andb_prop in Ha as [_ L].
      destruct (lock_holder_enabled Hlock L) as (h & th & Hh & Hfh & Hah).
      apply (@sys_exec_enabled _ d o s h th); [apply Hrun | exact Hh | exact Hfh |].
      now rewrite Hah.
    + apply (@sys_exec_enabled _ d o s j t); [apply Hrun | exact Hj | exact Hf | exact Ha].
Qed.

(** X16.  Serving [N] requests takes at most [23 * N] steps in all,
    however they are interleaved and whatever the libraries answer: no
    schedule is longer, so no request runs for ever. *)
Theorem serving_ends_within_bound (d : discipline) (w : world)
    (payloads : list TtsRequest) (sched : list (nat * oracle))
    (s : system Response) :
  run_schedule d sched (serving cfg w payloads) = Some s ->
  List.length sched <= 23 * List.length payloads.
Proof.
  intros H. eapply run_schedule_bounded; [| exact H].
  apply serving_bounded.
Qed.

End MoreServing.

(** ** Instances of the above *)

Module MoreWitness.

Import Sample.
Import Fixture.

Lemma parse_positive_int_positive_witness :
  parse_positive_int py_int (Some (lit "250")) 4000 = 250%Z
  /\ (0 < parse_positive_int py_int (Some (lit "-3")) 4000)%Z
  /\ (0 < parse_positive_int py_int (Some (lit "0")) 4000)%Z
  /\ (0 < parse_positive_int py_int (Some (lit "4k")) 4000)%Z
  /\ (0 < parse_positive_int py_int None 4000)%Z.
Proof.
  split; [reflexivity |].
  split; [exact (proj1 (@parse_positive_int_positive py_int
                          (Some (lit "-3")) 4000 eq_refl)) |].
  split; [exact (proj1 (@parse_positive_int_positive py_int
                          (Some (lit "0")) 4000 eq_refl)) |].
  split; [exact (proj1 (@parse_positive_int_positive py_int
                          (Some (lit "4k")) 4000 eq_refl)) |].
  exact (proj1 (@parse_positive_int_positive py_int None 4000 eq_refl)).
Defined.

Lemma parse_positive_float_positive_or_nan_witness :
  parse_positive_float py_float (Some (lit "nan")) float_3 = S754_nan
  /\ (float_gt0 (parse_positive_float py_float (Some (lit "0")) float_3) = true
      \/ is_nan (parse_positive_float py_float (Some (lit "0")) float_3) = true).
Proof.
  split.
  - apply (proj2 (@parse_positive_float_positive_or_nan py_float
                    (Some (lit "nan")) float_3 eq_refl) (lit "nan"));
      reflexivity.
  - apply (proj1 (@parse_positive_float_positive_or_nan py_float
                    (Some (lit "0")) float_3 eq_refl)).
Defined.

Lemma load_config_strings_witness :
  MODEL_ID (load_config py_int py_float
              (env_of [("KUGELAUDIO_MODEL_ID"%string, lit "   ")]))
  = default_model_id
  /\ DEFAULT_VOICE (load_config py_int py_float
                      (env_of [("KUGELAUDIO_DEFAULT_VOICE"%string, lit "  ")]))
     = None.
Proof.
  split.
  - apply (proj1 (proj2 (proj2 (load_config_strings py_int py_float
             (env_of [("KUGELAUDIO_MODEL_ID"%string, lit "   ")])))) (lit "   "));
      reflexivity.
  - apply (proj2 (proj2 (proj2 (proj2 (proj2 (load_config_strings py_int py_float
             (env_of [("KUGELAUDIO_DEFAULT_VOICE"%string, lit "  ")]))))))).
    reflexivity.
Defined.

Lemma load_precision_follows_device_witness :
  loaded_dtype
    (trace (run happy (ensure_loaded ascii_lower cfg)
                (world_of initial_globals (env_device (lit "CUDA:0")) true)))
  = Some bfloat16
  /\ loaded_dtype
       (trace (run happy (ensure_loaded ascii_lower cfg)
                   (world_of initial_globals (env_device (lit "CUDA:0")) false)))
     = Some float32.
Proof.
  split.
  - apply (proj1 (@load_precision_follows_device ascii_lower cfg happy
                    (world_of initial_globals (env_device (lit "CUDA:0")) true)
                    eq_refl)).
  - apply (proj1 (@load_precision_follows_device ascii_lower cfg happy
                    (world_of initial_globals (env_device (lit "CUDA:0")) false)
                    eq_refl)).
Defined.

Lemma engine_and_processor_published_together_witness :
  paired (globs (final (run (load_fails out_of_memory)
                            (ensure_loaded ascii_lower cfg) cold))) = true.
Proof.
  apply (proj1 (proj2 (engine_and_processor_published_together ascii_lower cfg
                         (load_fails out_of_memory) cold))).
  reflexivity.
Defined.

Lemma failed_load_is_retried_witness :
  out (run happy (healthz cfg)
           (final (run (load_fails out_of_memory) (ensure_loaded ascii_lower cfg)
                       (world_of initial_globals (env_device (lit "mps")) false))))
  = Returned {| ok := false; model := MODEL_ID cfg; device := lit "mps" |}.
Proof.
  apply (proj1 (proj2 (proj2 (@failed_load_is_retried ascii_lower cfg
           (load_fails out_of_memory)
           (world_of initial_globals (env_device (lit "mps")) false)
           out_of_memory eq_refl eq_refl))) happy).
Defined.

Lemma successful_load_publishes_witness :
  exists d m0 m p,
    out (run happy (resolve_device ascii_lower) cold) = Returned d
    /\ happy (ModelFromPretrained (MODEL_ID cfg)
                (if startswith d (lit "cuda") then bfloat16 else float32))
       = inr m0
    /\ happy (ModelTo m0 d) = inr m
    /\ happy (ModelEval m) = inr tt
    /\ happy (StripEncoders m) = inr tt
    /\ happy (ProcessorFromPretrained (MODEL_ID cfg)) = inr p
    /\ globs (final (run happy (ensure_loaded ascii_lower cfg) cold))
       = {| MODEL := Some m; PROCESSOR := Some p; DEVICE := d |}.
Proof.
  apply (@successful_load_publishes ascii_lower cfg happy cold); reflexivity.
Defined.

Lemma ready_after_startup_witness :
  out (run happy (healthz cfg) (final (run happy (lifespan ascii_lower cfg) cold)))
  = Returned {| ok := true; model := MODEL_ID cfg; device := lit "cpu" |}.
Proof.
  apply (proj1 (@ready_after_startup ascii_lower cfg happy cold eq_refl) happy).
Defined.

Lemma tts_returns_what_was_written_witness :
  exists audio,
    written (trace (run plain_array_no_rate (tts cfg hello) warm))
    = Some (audio, 24000%Z, [Byte.x52; Byte.x49; Byte.x46; Byte.x46]).
Proof.
  apply (proj2 (@tts_returns_what_was_written cfg plain_array_no_rate warm hello
                  {| content := [Byte.x52; Byte.x49; Byte.x46; Byte.x46];
                     media_type := lit "audio/wav" |}
                  eq_refl)).
Defined.

Lemma output_normalised_by_kind_witness :
  existsb (is_call_event (@is_np_asarray))
          (trace (run plain_array_no_rate (tts cfg hello) warm)) = true
  /\ existsb (is_call_event (@is_tensor_to_numpy))
             (trace (run happy (tts cfg hello) warm)) = true.
Proof.
  split.
  - apply (proj2 (@output_normalised_by_kind cfg plain_array_no_rate warm hello
                    (Object 12) eq_refl)).
  - apply (proj1 (@output_normalised_by_kind cfg happy warm hello
                    (Tensor 12) eq_refl)).
Defined.

Lemma serving_never_deadlocks_witness :
  forallb finished (tasks (state_after Preemptive generating two_requests)) = true
  \/ can_step Preemptive (state_after Preemptive generating two_requests).
Proof.
  apply (@serving_never_deadlocks cfg Preemptive warm [hello; hello]).
  - reflexivity.
  - apply state_after_reachable.
Defined.

Lemma serving_ends_within_bound_witness :
  List.length second_encoding <= 23 * 2.
Proof.
  apply (@serving_ends_within_bound cfg asyncio warm [hello; hello]
           second_encoding (state_after asyncio second_encoding two_requests)).
  vm_compute. reflexivity.
Defined.

Lemma requests_release_once_witness :
  lock_events_of 1 (history (state_after asyncio second_encoding two_requests)) = []
  \/ lock_events_of 1 (history (state_after asyncio second_encoding two_requests))
     = [LAcquire; LRelease].
Proof.
  refine (proj2 (@requests_release_once cfg asyncio warm [hello; hello]
                   (state_after asyncio second_encoding two_requests) 1
                   (match nth_error (tasks (state_after asyncio second_encoding
                                                         two_requests)) 1 with
                    | Some t => t
                    | None => Running (Raise out_of_memory)
                    end)
                   (state_after_reachable asyncio second_encoding two_requests) _) _).
  - vm_compute. reflexivity.
  - vm_compute. reflexivity.
Defined.

Lemma resolved_parameters_used_witness :
  nth_error (trace (run happy (tts cfg hello) warm)) 5
  = Some (EvEnter (Generate (Some (Object 1)) (Object 10) float_3 2048)).
Proof.
  apply (proj2 (@resolved_parameters_used cfg happy warm hello
                  eq_refl eq_refl) (Object 10) (Object 10)); reflexivity.
Defined.

Lemma gate_never_left_held_witness :
  exists i t,
    nth_error (tasks (state_after Preemptive generating two_requests)) i = Some t
    /\ finished t = false.
Proof.
  apply (@gate_never_left_held cfg Preemptive warm [hello; hello]).
  - reflexivity.
  - apply state_after_reachable.
  - vm_compute. reflexivity.
Defined.

Lemma resolve_device_available_witness :
  exists d,
    out (run happy (resolve_device ascii_lower)
             (world_of initial_globals (env_device (lit "cuda:1")) false))
    = Returned d
    /\ d <> []
    /\ (d = lit "cpu" \/ d = lit "cuda"
        \/ d = configured_device ascii_lower
                 (world_of initial_globals (env_device (lit "cuda:1")) false))
    /\ (startswith d (lit "cuda") = true -> false = true).
Proof.
  apply (resolve_device_available ascii_lower happy
           (world_of initial_globals (env_device (lit "cuda:1")) false)).
Defined.

End MoreWitness.

(** ** No retry *)

(** X20.  A request enters the engine's generation routine at most once
    and makes at most eight library calls in all; once a library has
    raised, no library is called again: a failure is never retried and the
    rest of the pipeline is skipped. *)
Theorem tts_never_retries (cfg : config) (o : oracle) (w : world)
    (payload : TtsRequest) :
  entries (@is_generate) (trace (run o (tts cfg payload) w)) <= 1
  /\ entries (@is_pipeline) (trace (run o (tts cfg payload) w)) <= 8
  /\ existsb (is_enter (fun _ _ => true))
             (after_raise (trace (run o (tts cfg payload) w))) = false.
Proof.
  destruct (tts_entry cfg o w payload) as [(-> & _ & _) | (Hk & Hg)].
  { cbn. repeat split; lia. }
  rewrite (tts_admitted cfg o w payload Hg).
  unfold tts_body, async_with_GENERATE_LOCK. cbn. rewrite Hk. cbn.
  oracle_cases o; unfold entries; cbn; repeat split; lia.
Qed.
